(** * spotify-ambient-display: the relay's cache, poll loop and API gate

    A shallow embedding of [src/server/api.js] and [src/server/index.js].
    JavaScript values are an untyped tree ([jsval]); asynchronous functions
    are programs of a small free monad ([prog]) whose nodes are the places
    where the source touches the outside world (provider calls, the memo
    cache, socket.io, the console, the mutable session slot). *)

From stdpp Require Import gmap strings list pretty.
From Stdlib Require Import ZArith Ascii String.
Local Open Scope string_scope.
Local Open Scope Z_scope.
Local Open Scope list_scope.

(** ** JavaScript values *)

#[warnings="-register-all"]
Inductive jsval : Type :=
| JUndefined
| JNull
| JBool (b : bool)
| JNum (n : Z)
| JStr (s : string)
| JArr (items : list jsval)
| JObj (fields : list (string * jsval)).

(** What a rejected promise or a [throw] carries. *)
Inductive exn : Type :=
| TypeError
| Rejected (reason : jsval).

Inductive result (A : Type) : Type :=
| Ok (a : A)
| Err (e : exn).
Arguments Ok {A} a.
Arguments Err {A} e.

#[export] Instance result_ret : MRet result := fun _ a => Ok a.
#[export] Instance result_bind : MBind result := fun _ _ f r =>
  match r with
  | Ok a => f a
  | Err e => Err e
  end.

(** [!!v] *)
Definition truthy (v : jsval) : bool :=
  match v with
  | JUndefined | JNull => false
  | JBool b => b
  | JNum n => negb (Z.eqb n 0)
  | JStr s => negb (String.eqb s "")
  | JArr _ | JObj _ => true
  end.

(** [a === b]. Arrays and objects compare by reference; the two sides of
    every [===] in the source come from different places (a provider
    response, a request, a literal), so they are never the same object. *)
Definition strict_eq (a b : jsval) : bool :=
  match a, b with
  | JUndefined, JUndefined => true
  | JNull, JNull => true
  | JBool x, JBool y => Bool.eqb x y
  | JNum x, JNum y => Z.eqb x y
  | JStr x, JStr y => String.eqb x y
  | _, _ => false
  end.

Fixpoint obj_get (fields : list (string * jsval)) (p : string) : jsval :=
  match fields with
  | [] => JUndefined
  | (q, v) :: rest => if String.eqb q p then v else obj_get rest p
  end.

(** [{...o, p: v}] *)
Fixpoint obj_set (fields : list (string * jsval)) (p : string) (v : jsval)
  : list (string * jsval) :=
  match fields with
  | [] => [(p, v)]
  | (q, w) :: rest =>
      if String.eqb q p then (q, v) :: rest else (q, w) :: obj_set rest p v
  end.

(** [v.p] for the property names the source reads (none of them is a
    built-in of strings, numbers or arrays): a [TypeError] on [null] and
    [undefined], the field of an object, [undefined] elsewhere. *)
Definition get_prop (v : jsval) (p : string) : result jsval :=
  match v with
  | JUndefined | JNull => Err TypeError
  | JObj fields => Ok (obj_get fields p)
  | _ => Ok JUndefined
  end.

(** [v?.p] *)
Definition get_prop_opt (v : jsval) (p : string) : result jsval :=
  match v with
  | JUndefined | JNull => Ok JUndefined
  | _ => get_prop v p
  end.

(** [a ?? b] *)
Definition nullish (a b : jsval) : jsval :=
  match a with
  | JUndefined | JNull => b
  | _ => a
  end.

(** [a || b] *)
Definition js_or (a b : jsval) : jsval := if truthy a then a else b.

(** [v[i]] on an array. *)
Definition get_index (v : jsval) (i : nat) : result jsval :=
  match v with
  | JUndefined | JNull => Err TypeError
  | JArr items => Ok (default JUndefined (items !! i))
  | _ => Ok JUndefined
  end.

(** The last character of a text, as a text. *)
Fixpoint last_char (s : string) : option string :=
  match s with
  | EmptyString => None
  | String c EmptyString => Some (String c EmptyString)
  | String _ rest => last_char rest
  end.

(** [v.at(0)] and [v.at(-1)]: arrays and strings have the method, [null]
    and [undefined] have no properties, and on any other value [at] is
    [undefined], which is not callable. *)
Definition at_first (v : jsval) : result jsval :=
  match v with
  | JArr items => Ok (default JUndefined (head items))
  | JStr (String c _) => Ok (JStr (String c EmptyString))
  | JStr EmptyString => Ok JUndefined
  | _ => Err TypeError
  end.

Definition at_last (v : jsval) : result jsval :=
  match v with
  | JArr items => Ok (default JUndefined (last items))
  | JStr s => Ok (from_option JStr JUndefined (last_char s))
  | _ => Err TypeError
  end.

(** [v.map(f)] with a callback that may throw. *)
Fixpoint map_result (f : jsval → result jsval) (items : list jsval)
  : result (list jsval) :=
  match items with
  | [] => Ok []
  | x :: rest => y ← f x; ys ← map_result f rest; Ok (y :: ys)
  end.

Definition js_map (v : jsval) (f : jsval → result jsval) : result jsval :=
  match v with
  | JArr items => ys ← map_result f items; Ok (JArr ys)
  | _ => Err TypeError
  end.

(** [s.split(sep)] for a one-character separator. *)
Fixpoint split_go (sep : ascii) (acc : string) (s : string) : list string :=
  match s with
  | EmptyString => [String.rev acc]
  | String c rest =>
      if Ascii.eqb c sep then String.rev acc :: split_go sep EmptyString rest
      else split_go sep (String c acc) rest
  end.

Definition split (sep : ascii) (s : string) : list string :=
  split_go sep EmptyString s.

Definition js_split (v : jsval) (sep : ascii) : result (list jsval) :=
  match v with
  | JStr s => Ok (JStr <$> split sep s)
  | _ => Err TypeError
  end.

(** ** The provider

    The operations of the Spotify SDK that the source calls, named as in
    the source ([sdk.player.getUsersQueue()] is [player_getUsersQueue]).
    A session handle stands for a [SpotifyApi] object. *)

Definition SpotifyApi := nat.

Inductive call : Type :=
| playlists_getPlaylist (id : jsval)
| artists_get (id : jsval)
| artists_topTracks (id : jsval)
| albums_get (id : jsval)
| shows_get (id : jsval)
| tracks_get (id : jsval)
| search (q types market limit : jsval)
| player_getUsersQueue
| player_addItemToPlaybackQueue (uri : jsval)
| player_getCurrentlyPlayingTrack (market additional_types : jsval)
| player_startResumePlayback
| player_pausePlayback
| player_skipToNext
| player_skipToPrevious.

(** What the process says to the outside: the console, socket.io, the
    comms object attached to requests and the event bus. A template
    literal is kept as the list of its parts. *)
Inductive output : Type :=
| console_log (msg : string)
| console_error (msg : string) (e : exn)
| io_emit (event : string) (payload : jsval)
| comms_error (msg : string)
| comms_message (parts : list jsval) (type : jsval)
| events_system (name : string)
| events_error (message : string) (e : exn).

(** ** Asynchronous programs *)

Inductive prog (A : Type) : Type :=
| Ret (a : A)
| Throw (e : exn)
| Await (sdk : SpotifyApi) (c : call) (k : result jsval → prog A)
| MemoUse (key : string) (fetcher : prog jsval) (k : result jsval → prog A)
| Out (o : output) (k : prog A)
| ReadSession (k : option SpotifyApi → prog A)
| ReadClientsCount (k : Z → prog A).
Arguments Ret {A} a.
Arguments Throw {A} e.
Arguments Await {A} sdk c k.
Arguments MemoUse {A} key fetcher k.
Arguments Out {A} o k.
Arguments ReadSession {A} k.
Arguments ReadClientsCount {A} k.

Fixpoint bind {A B : Type} (p : prog A) (f : A → prog B) : prog B :=
  match p with
  | Ret a => f a
  | Throw e => Throw e
  | Await sdk c k => Await sdk c (fun r => bind (k r) f)
  | MemoUse key fetcher k => MemoUse key fetcher (fun r => bind (k r) f)
  | Out o k => Out o (bind k f)
  | ReadSession k => ReadSession (fun s => bind (k s) f)
  | ReadClientsCount k => ReadClientsCount (fun n => bind (k n) f)
  end.

#[export] Instance prog_ret : MRet prog := fun _ a => Ret a.
#[export] Instance prog_bind : MBind prog := fun _ _ f p => bind p f.

(** [try { p } catch (e) { h e }] *)
Fixpoint try_catch {A : Type} (p : prog A) (h : exn → prog A) : prog A :=
  match p with
  | Ret a => Ret a
  | Throw e => h e
  | Await sdk c k => Await sdk c (fun r => try_catch (k r) h)
  | MemoUse key fetcher k => MemoUse key fetcher (fun r => try_catch (k r) h)
  | Out o k => Out o (try_catch k h)
  | ReadSession k => ReadSession (fun s => try_catch (k s) h)
  | ReadClientsCount k => ReadClientsCount (fun n => try_catch (k n) h)
  end.

(** A synchronous expression that may throw. *)
Definition lift {A : Type} (r : result A) : prog A :=
  match r with
  | Ok a => Ret a
  | Err e => Throw e
  end.

(** [await sdk.op(...)]: the value on success, a throw on rejection. *)
Definition await (sdk : SpotifyApi) (c : call) : prog jsval :=
  Await sdk c lift.

(** [await memo.use(key, () => fetcher)] *)
Definition memo_await (key : string) (fetcher : prog jsval) : prog jsval :=
  MemoUse key fetcher lift.

Definition out (o : output) : prog unit := Out o (Ret tt).

(** ** View models ([trim] and [normalisedData]) *)

Definition normalisedData (id name subtitle uri images : jsval) : result jsval :=
  full ← at_first images;
  low ← at_last images;
  Ok (JObj [("id", id); ("title", name); ("subtitle", subtitle); ("uri", uri);
            ("image", JObj [("full", full); ("low", low)])]).

Definition image_of (images : jsval) : result jsval :=
  full ← at_first images;
  low ← at_last images;
  Ok (JObj [("full", full); ("low", low)]).

Definition trim_track (track : jsval) : result jsval :=
  id ← get_prop track "id";
  name ← get_prop track "name";
  artists ← get_prop track "artists";
  first ← get_index artists 0;
  artist ← get_prop first "name";
  uri ← get_prop track "uri";
  album_opt ← get_prop_opt track "album";
  images_opt ← get_prop_opt album_opt "images";
  normalised ← normalisedData id name artist uri (nullish images_opt (JArr []));
  album ← get_prop track "album";
  album_name ← get_prop album "name";
  names ← js_map artists (fun a => get_prop a "name");
  number ← get_prop track "track_number";
  images ← get_prop album "images";
  image ← image_of images;
  Ok (JObj [("id", id); ("normalised", normalised); ("title", name);
            ("album", album_name); ("artist", artist); ("artists", names);
            ("number", number); ("uri", uri); ("image", image)]).

Definition trim_playlist (playlist : jsval) : result jsval :=
  id ← get_prop playlist "id";
  name ← get_prop playlist "name";
  owner ← get_prop playlist "owner";
  display_name ← get_prop owner "display_name";
  uri ← get_prop playlist "uri";
  images ← get_prop playlist "images";
  normalised ← normalisedData id name display_name uri images;
  tracks ← get_prop playlist "tracks";
  total ← get_prop tracks "total";
  image ← image_of images;
  Ok (JObj [("id", id); ("normalised", normalised); ("title", name);
            ("owner", display_name); ("total", total); ("uri", uri);
            ("image", image)]).

Definition trim_artist (artist : jsval) : result jsval :=
  id ← get_prop artist "id";
  name ← get_prop artist "name";
  uri ← get_prop artist "uri";
  images ← get_prop artist "images";
  normalised ← normalisedData id name (JStr "") uri images;
  image ← image_of images;
  Ok (JObj [("id", id); ("normalised", normalised); ("title", name);
            ("uri", uri); ("image", image)]).

Definition trim_album (album : jsval) : result jsval :=
  id ← get_prop album "id";
  name ← get_prop album "name";
  release ← get_prop album "release_date";
  parts ← js_split release "-";
  uri ← get_prop album "uri";
  images ← get_prop album "images";
  normalised ← normalisedData id name (default JUndefined (head parts)) uri images;
  total ← get_prop album "total_tracks";
  image ← image_of images;
  Ok (JObj [("normalised", normalised); ("id", id); ("title", name);
            ("release", release); ("uri", uri); ("total", total);
            ("image", image)]).

Definition trim_episode (episode : jsval) : result jsval :=
  id ← get_prop episode "id";
  name ← get_prop episode "name";
  show ← get_prop episode "show";
  show_name ← get_prop show "name";
  uri ← get_prop episode "uri";
  images ← get_prop episode "images";
  normalised ← normalisedData id name show_name uri images;
  release ← get_prop episode "release_date";
  image ← image_of images;
  Ok (JObj [("id", id); ("normalised", normalised); ("title", name);
            ("show", show_name); ("release", release); ("uri", uri);
            ("image", image)]).

Definition trim_show (show : jsval) : result jsval :=
  id ← get_prop show "id";
  name ← get_prop show "name";
  uri ← get_prop show "uri";
  images ← get_prop show "images";
  normalised ← normalisedData id name (JStr "") uri images;
  image ← image_of images;
  Ok (JObj [("id", id); ("normalised", normalised); ("title", name);
            ("uri", uri); ("image", image)]).

(** [const [_, type, id] = uri.split(':')] *)
Definition deconstructUri (uri : jsval) : result (jsval * jsval) :=
  parts ← js_split uri ":";
  Ok (default JUndefined (parts !! 1%nat), default JUndefined (parts !! 2%nat)).

(** ** Options *)

Definition DEFAULT_OPTS : gmap string jsval :=
  <["market" := JStr "GB"]>
  (<["searchQueryLimit" := JNum 10]>
  (<["centralisedPolling" := JBool true]>
  (<["centralisedPollingTimer" := JNum 5000]> ∅))).

(** [o.name] on an options object. *)
Definition opt (o : gmap string jsval) (name : string) : jsval :=
  default JUndefined (o !! name).

(** [{...DEFAULT_OPTS, ...opts}] *)
Definition merge_opts (opts : gmap string jsval) : gmap string jsval :=
  opts ∪ DEFAULT_OPTS.

(** A parameter declared [p = d]: the default replaces [undefined] only. *)
Definition or_default (v d : jsval) : jsval :=
  match v with
  | JUndefined => d
  | _ => v
  end.

(** ** The cache ([memo.js])

    [memo.js] is not among the sources; only its callers are. *)

Definition caller := nat.

(** Modelled from the spec: a value stored by [memo.js] with its absolute
    expiry (§3, CacheEntry). *)
Record entry : Type := {
  value : jsval;
  expiresAt : Z
}.

(** Modelled from the spec: the state of the cache of [memo.js] (§3,
    CacheEntry): per key the last resolved value with its absolute expiry,
    and the one outstanding resolution with the requesters that share it. *)
Record memo_state : Type := {
  values : gmap string entry;
  pending : gmap string (list caller)
}.

Definition memo_empty : memo_state := {| values := ∅; pending := ∅ |}.

Inductive probe : Type :=
| Fresh (v : jsval)
| Attach (waiters : list caller)
| Start.

(** Modelled from the spec: the lookup of [memo.use] (§4.1, steps 1 to 3,
    and §3: once [expiresAt] has passed the value is treated as absent). *)
Definition memo_probe (now : Z) (key : string) (m : memo_state) : probe :=
  let in_flight :=
    match pending m !! key with
    | Some ws => Attach ws
    | None => Start
    end in
  match values m !! key with
  | Some e => if Z.leb now (expiresAt e) then Fresh (value e) else in_flight
  | None => in_flight
  end.

(** Modelled from the spec: the part of [memo.use] that runs when it is
    called (§4.1): a fresh value is returned, a resolution in flight is
    joined, otherwise the fetcher is started and recorded as in flight. *)
Definition memo_use (now : Z) (key : string) (c : caller) (m : memo_state)
  : memo_state * probe :=
  match memo_probe now key m with
  | Fresh v => (m, Fresh v)
  | Attach ws =>
      ({| values := values m; pending := <[key := ws ++ [c]]> (pending m) |},
       Attach ws)
  | Start =>
      ({| values := values m; pending := <[key := [c]]> (pending m) |}, Start)
  end.

Section Relay.

(** Parts of the repository that are not among the sources. *)

(** The time-to-live of the entries of [memo.js]. *)
Variable TTL : Z.
(** [memo.key(...parts)] of [memo.js]. *)
Variable memo_key : list jsval → string.
(** [ERROR] of [constants.js]. *)
Variable ERROR_UNAUTHENTICATED : string.
Variable ERROR_GENERAL : string.
(** The capture groups 1 to 3 of [SpotifyRegExp.exec(url)], [None] when the
    expression does not match (the JavaScript regular-expression engine). *)
Variable SpotifyRegExp_exec : jsval → option (jsval * jsval * jsval).

(** Modelled from the spec: the part of [memo.use] that runs when the
    fetcher settles (§4.1, step 3): on success the value is stored with
    [expiresAt = now + TTL], on failure nothing is stored; either way the
    in-flight marker is cleared and every requester gets the outcome. *)
Definition memo_settle (now : Z) (key : string) (r : result jsval)
  (m : memo_state) : memo_state * list caller :=
  match pending m !! key with
  | None => (m, [])
  | Some ws =>
      ({| values :=
            match r with
            | Ok v => <[key := {| value := v; expiresAt := now + TTL |}]> (values m)
            | Err _ => values m
            end;
          pending := delete key (pending m) |},
       ws)
  end.

(** *** Concurrent requesters

    Modelled from the spec: the cache of [memo.js] under concurrent
    requesters (§5). Between two awaits nothing else runs, so a run is a
    sequence of atomic events: a requester calls [memo.use], a fetcher
    settles, time passes. *)

Inductive memo_event : Type :=
| Use (c : caller) (key : string)
| Settle (key : string) (r : result jsval)
| Elapse (dt : nat).

Inductive memo_obs : Type :=
| Invoked (key : string) (c : caller)
| Received (c : caller) (r : result jsval)
| Settled (key : string).

Record cache : Type := {
  clock : Z;
  store : memo_state
}.

Definition memo_step (s : cache) (ev : memo_event) : cache * list memo_obs :=
  match ev with
  | Use c key =>
      let '(m, p) := memo_use (clock s) key c (store s) in
      ({| clock := clock s; store := m |},
       match p with
       | Fresh v => [Received c (Ok v)]
       | Attach _ => []
       | Start => [Invoked key c]
       end)
  | Settle key r =>
      match pending (store s) !! key with
      | Some _ =>
          let '(m, ws) := memo_settle (clock s) key r (store s) in
          ({| clock := clock s; store := m |},
           Settled key :: map (fun c => Received c r) ws)
      | None => (s, [])
      end
  | Elapse dt => ({| clock := clock s + Z.of_nat dt; store := store s |}, [])
  end.

Fixpoint memo_run (s : cache) (evs : list memo_event) : cache * list memo_obs :=
  match evs with
  | [] => (s, [])
  | ev :: rest =>
      let '(s1, o1) := memo_step s ev in
      let '(s2, o2) := memo_run s1 rest in
      (s2, o1 ++ o2)
  end.

(** What a run of the cache shows about one key. *)

(** The requesters whose fetcher was invoked for [key], in order. *)
Fixpoint invokers (key : string) (obs : list memo_obs) : list caller :=
  match obs with
  | [] => []
  | Invoked k c :: rest =>
      if bool_decide (k = key) then c :: invokers key rest
      else invokers key rest
  | _ :: rest => invokers key rest
  end.

(** The number of fetches for [key] that settled. *)
Fixpoint settlements (key : string) (obs : list memo_obs) : nat :=
  match obs with
  | [] => 0%nat
  | Settled k :: rest =>
      if bool_decide (k = key) then S (settlements key rest)
      else settlements key rest
  | _ :: rest => settlements key rest
  end.

(** The requesters that call [memo.use] with [key], in order. *)
Fixpoint callers_of (key : string) (evs : list memo_event) : list caller :=
  match evs with
  | [] => []
  | Use c k :: rest =>
      if bool_decide (k = key) then c :: callers_of key rest
      else callers_of key rest
  | _ :: rest => callers_of key rest
  end.

Definition settles (key : string) (ev : memo_event) : bool :=
  match ev with
  | Settle k _ => bool_decide (k = key)
  | _ => false
  end.

(** The fetch for [key] stays outstanding throughout [evs]. *)
Definition outstanding (key : string) (evs : list memo_event) : bool :=
  forallb (fun ev => negb (settles key ev)) evs.

(** The number of fetches recorded as in flight for [key]. *)
Definition in_flight (s : cache) (key : string) : nat :=
  match pending (store s) !! key with
  | Some _ => 1%nat
  | None => 0%nat
  end.

(** No value that has not expired is stored for [key]. *)
Definition no_fresh (s : cache) (key : string) : Prop :=
  ∀ e, values (store s) !! key = Some e → expiresAt e < clock s.

(** The requesters sharing a resolution once [cs] have joined it, and the
    one among [cs] whose call started it. *)
Definition joined (p : option (list caller)) (cs : list caller)
  : option (list caller) :=
  match cs with
  | [] => p
  | _ => Some (default [] p ++ cs)
  end.

Definition first_of (p : option (list caller)) (cs : list caller)
  : list caller :=
  match p, cs with
  | None, c :: _ => [c]
  | _, _ => []
  end.

(** ** [SpotifyInteract] *)

(** A method call on the session object; on [null] it is a [TypeError]. *)
Definition call_on (sdk : option SpotifyApi) (c : call) : prog jsval :=
  match sdk with
  | Some s => await s c
  | None => Throw TypeError
  end.

(** [{...v}]: the fields of an object, nothing for [null] and [undefined]
    (the other kinds of value never reach a spread in the source's shapes). *)
Definition spread (v : jsval) : list (string * jsval) :=
  match v with
  | JObj fields => fields
  | _ => []
  end.

(** [[...v]] *)
Definition iterate (v : jsval) : result (list jsval) :=
  match v with
  | JArr items => Ok items
  | _ => Err TypeError
  end.

(** [v.some(f)] and [v.filter(f)] with callbacks that may throw. *)
Fixpoint some_result (f : jsval → result bool) (items : list jsval)
  : result bool :=
  match items with
  | [] => Ok false
  | x :: rest =>
      f x ≫= fun b : bool => if b then Ok true else some_result f rest
  end.

Definition js_some (v : jsval) (f : jsval → result bool) : result bool :=
  match v with
  | JArr items => some_result f items
  | _ => Err TypeError
  end.

Fixpoint filter_result (f : jsval → result bool) (items : list jsval)
  : result (list jsval) :=
  match items with
  | [] => Ok []
  | x :: rest =>
      f x ≫= fun b : bool =>
      ys ← filter_result f rest; Ok (if b then x :: ys else ys)
  end.

Definition getContext (sdk : option SpotifyApi) (uri : jsval) : prog jsval :=
  parts ← lift (deconstructUri uri);
  let type := fst parts in
  let id := snd parts in
  try_catch
    (if strict_eq type (JStr "playlist") then
       playlist ← call_on sdk (playlists_getPlaylist id);
       t ← lift (trim_playlist playlist);
       Ret (JObj (obj_set (spread t) "type" (JStr "playlist")))
     else if strict_eq type (JStr "artist") then
       artist ← call_on sdk (artists_get id);
       t ← lift (trim_artist artist);
       Ret (JObj (obj_set (spread t) "type" (JStr "artist")))
     else if strict_eq type (JStr "album") then
       album ← call_on sdk (albums_get id);
       t ← lift (trim_album album);
       Ret (JObj (obj_set (spread t) "type" (JStr "album")))
     else if strict_eq type (JStr "show") then
       show ← call_on sdk (shows_get id);
       t ← lift (trim_show show);
       Ret (JObj (obj_set (spread t) "type" (JStr "show")))
     else Ret (JObj []))
    (fun _ => Ret (JObj [])).

Definition artist_topTracks (sdk : option SpotifyApi) (id : jsval) : prog jsval :=
  results ← memo_await (memo_key [JStr "artist"; JStr "tracks"; id])
              (call_on sdk (artists_topTracks id));
  tracks ← lift (get_prop results "tracks");
  trimmed ← lift (js_map tracks trim_track);
  Ret (JObj [("tracks", trimmed)]).

Definition album_get (sdk : option SpotifyApi) (id : jsval) : prog jsval :=
  album ← memo_await (memo_key [JStr "album"; id]) (call_on sdk (albums_get id));
  tracks ← lift (get_prop album "tracks");
  items ← lift (get_prop tracks "items");
  with_album ← lift (js_map items
                 (fun item => Ok (JObj (obj_set (spread item) "album" album))));
  trimmed ← lift (js_map with_album trim_track);
  Ret (JObj [("tracks", trimmed)]).

Definition track_get (sdk : option SpotifyApi) (id : jsval) : prog jsval :=
  track ← memo_await (memo_key [JStr "track"; id]) (call_on sdk (tracks_get id));
  t ← lift (trim_track track);
  Ret (JObj [("tracks", JArr [t])]).

Definition queue_get (sdk : option SpotifyApi) : prog jsval :=
  queue ← call_on sdk player_getUsersQueue;
  if negb (truthy queue) then Ret (JObj [("noQueue", JBool true)])
  else
    playing ← lift (get_prop queue "currently_playing");
    upcoming ← lift (get_prop queue "queue");
    rest ← lift (iterate upcoming);
    kept ← lift (filter_result
              (fun item =>
                 type ← get_prop item "type";
                 Ok (negb (strict_eq type (JStr "episode")
                           || strict_eq type (JStr "track"))))
              (filter (fun item => truthy item = true) (playing :: rest)));
    items ← lift (map_result
               (fun item =>
                  type ← get_prop item "type";
                  if strict_eq type (JStr "episode") then trim_episode item
                  else trim_track item)
               kept);
    Ret (JObj [("items", JArr items)]).

Definition queue_add (sdk : option SpotifyApi) (uri : jsval) : prog jsval :=
  users_queue ← call_on sdk player_getUsersQueue;
  queue ← lift (get_prop users_queue "queue");
  lift (js_some queue
          (fun item => u ← get_prop item "uri"; Ok (strict_eq u uri)))
  ≫= fun found : bool =>
  if found then Ret (JObj [("success", JBool false)])
  else
    _ ← call_on sdk (player_addItemToPlaybackQueue uri);
    Ret (JObj [("success", JBool true)]).

Definition search_query (sdk : option SpotifyApi) (q market searchQueryLimit : jsval)
  : prog jsval :=
  let market := or_default market (opt DEFAULT_OPTS "market") in
  let searchQueryLimit :=
    or_default searchQueryLimit (opt DEFAULT_OPTS "searchQueryLimit") in
  results ← memo_await (memo_key [JStr "search"; q])
              (call_on sdk
                 (search q (JArr [JStr "track"; JStr "artist"; JStr "album"])
                    market searchQueryLimit));
  albums ← lift (r ← get_prop results "albums"; get_prop r "items");
  albums ← lift (js_map albums trim_album);
  artists ← lift (r ← get_prop results "artists"; get_prop r "items");
  artists ← lift (js_map artists trim_artist);
  tracks ← lift (r ← get_prop results "tracks"; get_prop r "items");
  tracks ← lift (js_map tracks trim_track);
  Ret (JObj [("albums", albums); ("artists", artists); ("tracks", tracks)]).

(** [memo.use(uri, () => getContext(sdk, uri))]. The cache is keyed by
    strings; with a [uri] that is not a string the fetcher throws in
    [deconstructUri] before any call, which the cache hands on without
    storing anything (§4.1). *)
Definition context_get (sdk : option SpotifyApi) (uri : jsval) : prog jsval :=
  match uri with
  | JStr key => memo_await key (getContext sdk uri)
  | _ => getContext sdk uri
  end.

Definition info_get (sdk : option SpotifyApi) (market : jsval) : prog jsval :=
  let market := or_default market (opt DEFAULT_OPTS "market") in
  track ← call_on sdk (player_getCurrentlyPlayingTrack market (JStr "episode"));
  if negb (truthy track) then Ret (JObj [("noTrack", JBool true)])
  else
    uri ← lift (c ← get_prop track "context"; get_prop c "uri");
    context ← context_get sdk uri;
    lift (isPlaying ← get_prop track "is_playing";
          kind ← get_prop track "currently_playing_type";
          item ← get_prop track "item";
          trimmed ← (if strict_eq kind (JStr "episode") then trim_episode item
                     else trim_track item);
          current ← get_prop track "progress_ms";
          duration ← get_prop item "duration_ms";
          Ok (JObj [("isPlaying", isPlaying); ("track", trimmed);
                    ("context", context);
                    ("player", JObj [("current", current);
                                     ("duration", duration)])])).

Definition player_play (sdk : option SpotifyApi) : prog jsval :=
  _ ← call_on sdk player_startResumePlayback;
  Ret (JObj [("success", JBool true)]).

Definition player_pause (sdk : option SpotifyApi) : prog jsval :=
  _ ← call_on sdk player_pausePlayback;
  Ret (JObj [("success", JBool true)]).

Definition player_forward (sdk : option SpotifyApi) : prog jsval :=
  _ ← call_on sdk player_skipToNext;
  Ret (JObj [("success", JBool true)]).

Definition player_back (sdk : option SpotifyApi) : prog jsval :=
  _ ← call_on sdk player_skipToPrevious;
  Ret (JObj [("success", JBool true)]).

(** ** The router of [api.js] *)

Record request : Type := {
  method : string;
  path : list string;
  query : list (string * jsval);
  sdk : option SpotifyApi
}.

(** How a middleware or handler leaves a request: [res.json(body)],
    [next(e)] or [next()]. *)
Inductive reply : Type :=
| Json (body : jsval)
| NextErr (e : exn)
| Next.

Definition apiWrapper (handler : prog jsval) : prog reply :=
  try_catch (body ← handler; Ret (Json body))
    (fun e => Out (console_error "API Error" e) (Ret (NextErr e))).

(** A route path of [app.get]: a literal segment, optionally followed by
    the [:id] parameter. *)
Inductive pattern : Type :=
| Literal (name : string)
| WithId (name : string).

(** Express matches paths without regard to the case of their letters
    (its routers are not [caseSensitive]). *)
Definition lower_ascii (c : ascii) : ascii :=
  let n := N_of_ascii c in
  if (N.leb 65 n && N.leb n 90)%bool then ascii_of_N (n + 32) else c.

Fixpoint lower (s : string) : string :=
  match s with
  | EmptyString => EmptyString
  | String c rest => String (lower_ascii c) (lower rest)
  end.

Definition same_name (s name : string) : bool :=
  String.eqb (lower s) (lower name).

(** A path is kept as its segments, so one that ends in a slash ends in
    an empty segment; the routers are not [strict] and take one such
    slash as absent. *)
Fixpoint strip_slash (segments : list string) : list string :=
  match segments with
  | [] => []
  | [s] => if String.eqb s "" then [] else [s]
  | s :: rest => s :: strip_slash rest
  end.

(** The [req.params.id] of a path that matches; [:id] stands for one
    segment that is not empty (kept here as it is written in the path). *)
Definition route_match (p : pattern) (segments : list string) : option jsval :=
  match p, strip_slash segments with
  | Literal name, [s] => if same_name s name then Some JUndefined else None
  | WithId name, [s; id] =>
      if same_name s name && negb (String.eqb id "")
      then Some (JStr id) else None
  | _, _ => None
  end.

Definition health (req : request) : prog reply :=
  Ret (Json (JObj [("success", JBool true);
                   ("authenticated", JBool (bool_decide (is_Some (sdk req))))])).

Definition search_handler (options : gmap string jsval) (req : request)
  : prog jsval :=
  let q := obj_get (query req) "q" in
  let fallback :=
    search_query (sdk req) q (opt options "market")
      (opt options "searchQueryLimit") in
  match SpotifyRegExp_exec q with
  | Some (typeOne, typeTwo, id) =>
      let type := js_or typeOne typeTwo in
      if strict_eq type (JStr "track") then track_get (sdk req) id
      else if strict_eq type (JStr "artist") then artist_topTracks (sdk req) id
      else if strict_eq type (JStr "album") then album_get (sdk req) id
      else fallback
  | None => fallback
  end.

Definition add_handler (req : request) : prog jsval :=
  added ← queue_add (sdk req) (obj_get (query req) "uri");
  success ← lift (get_prop added "success");
  _ ← (if negb (truthy success) then out (comms_error "Song already in queue")
       else out (comms_message
                   [JStr "Added <em>";
                    nullish (obj_get (query req) "name") (JStr "a track");
                    JStr "</em>"]
                   (JStr "track")));
  _ ← out (events_system "add");
  Ret (JObj [("success", success)]).

Definition command_handler (op : option SpotifyApi → prog jsval)
  (notice event : string) (req : request) : prog jsval :=
  response ← op (sdk req);
  _ ← out (comms_message [JStr notice] JUndefined);
  _ ← out (events_system event);
  Ret response.

(** The routes of [run], in the order they are registered. *)
Definition routes (options : gmap string jsval)
  : list (pattern * (request → jsval → prog reply)) :=
  [ (WithId "artist", fun req id => apiWrapper (artist_topTracks (sdk req) id));
    (WithId "album", fun req id => apiWrapper (album_get (sdk req) id));
    (Literal "search", fun req _ => apiWrapper (search_handler options req));
    (Literal "add", fun req _ => apiWrapper (add_handler req));
    (Literal "info", fun req _ =>
       apiWrapper (info_get (sdk req) (opt options "market")));
    (Literal "queue", fun req _ => apiWrapper (queue_get (sdk req)));
    (Literal "skipForward", fun req _ =>
       apiWrapper (command_handler player_forward "Skipped forward"
                     "skippedForward" req));
    (Literal "skipBackward", fun req _ =>
       apiWrapper (command_handler player_back "Skipped back"
                     "skippedBackward" req));
    (Literal "play", fun req _ =>
       apiWrapper (command_handler player_play "Pressed play" "play" req));
    (Literal "pause", fun req _ =>
       apiWrapper (command_handler player_pause "Pressed pause" "pause" req));
    (Literal "health", fun req _ => health req) ].

(** Express serves [HEAD] with the [GET] routes. *)
Definition is_get (req : request) : bool :=
  String.eqb (method req) "GET" || String.eqb (method req) "HEAD".

Fixpoint dispatch (table : list (pattern * (request → jsval → prog reply)))
  (req : request) : prog reply :=
  match table with
  | [] => Ret Next
  | (p, handler) :: rest =>
      match route_match p (path req) with
      | Some id => handler req id
      | None => dispatch rest req
      end
  end.

(** ** The poll loop of [run] *)

(** The callback handed to [asyncInterval]. *)
Definition polling : prog unit :=
  Out (console_log "Running centralised polling")
    (ReadSession (fun current =>
       if negb (bool_decide (is_Some current)) then Ret tt
       else
         ReadClientsCount (fun clientsCount =>
           if Z.ltb 0 clientsCount then
             ReadSession (fun current =>
               info ← info_get current JUndefined;
               Out (io_emit "info" info)
                 (Out (console_log "Ran centralised polling") (Ret tt)))
           else Ret tt))).

(** What [run] sets up: the router it returns and, when it starts the poll
    loop, the callback and the delay it hands to [asyncInterval]. *)
Record api : Type := {
  app : request → prog reply;
  interval : option (prog unit * jsval)
}.

Definition run (opts : gmap string jsval) : api :=
  let options := merge_opts opts in
  {| app := fun req => if is_get req then dispatch (routes options) req
                       else Ret Next;
     interval :=
       if truthy (opt options "centralisedPolling")
       then Some (polling, opt options "centralisedPollingTimer")
       else None |}.

(** ** The application of [index.js] *)

(** The router of [spotify/index.js], which is not among the sources. *)
Variable SpotifyRoutes : request → prog reply.

Definition attach (current : option SpotifyApi) (req : request) : request :=
  {| method := method req; path := path req; query := query req;
     sdk := current |}.

(** [app.use(prefix, ...)] hands on the request with the prefix removed,
    whatever the case of its letters. *)
Definition mounted (prefix : string) (req : request) : option request :=
  match path req with
  | s :: rest =>
      if same_name s prefix
      then Some {| method := method req; path := rest; query := query req;
                   sdk := sdk req |}
      else None
  | [] => None
  end.

Definition sdkProtect (req : request) (next : prog reply) : prog reply :=
  if negb (bool_decide (is_Some (sdk req))) then
    Ret (Json (JObj [("error", JBool true);
                     ("message", JStr ERROR_UNAUTHENTICATED)]))
  else next.

(** The error-handling middleware. *)
Definition on_error (r : reply) : prog reply :=
  match r with
  | NextErr e =>
      Out (events_error ERROR_GENERAL e)
        (Ret (Json (JObj [("error", JBool true);
                          ("message", JStr ERROR_GENERAL)])))
  | _ => Ret r
  end.

(** A request from the middleware that attaches the session onwards
    ([express.json], [cors] and the plugins come before it and belong to
    their own code), for any router mounted behind [sdkProtect]. [Next]
    leaves the request to the player pages mounted after the API. *)
Definition serve_with (ApiRoutes : request → prog reply) (req : request)
  : prog reply :=
  ReadSession (fun current =>
    let req := attach current req in
    r ← (r ← match mounted "spotify" req with
             | Some sub => SpotifyRoutes sub
             | None => Ret Next
             end;
         match r with
         | Next =>
             match mounted "api" req with
             | Some sub => sdkProtect sub (ApiRoutes sub)
             | None => Ret Next
             end
         | _ => Ret r
         end);
    on_error r).

(** [OPTIONS.api ?? {}] is [api_opts]. *)
Definition serve (api_opts : gmap string jsval) (req : request) : prog reply :=
  serve_with (app (run api_opts)) req.

(** ** Running a program

    One task run from start to end against the state of the process: the
    session slot [sdk.current], the sockets connected to [io] (their number
    is [io.engine.clientsCount]), the clock and the cache. The provider is
    an oracle that answers the n-th call made since the process started;
    [arriving] is what the resolutions that other tasks have in flight in
    the cache settle with. *)

Record world : Type := {
  session : option SpotifyApi;
  sockets : list nat;
  time : Z;
  cached : memo_state;
  answered : nat;
  arriving : string → result jsval
}.

Definition upstream := nat → SpotifyApi → call → result jsval.

Inductive event : Type :=
| Called (s : SpotifyApi) (c : call) (r : result jsval)
| MemoHit (key : string) (v : jsval)
| MemoFetch (key : string)
| MemoSettled (key : string) (r : result jsval)
| MemoJoined (key : string)
| Said (o : output)
| Broadcast (name : string) (payload : jsval) (to : list nat)
| TickFailed (e : exn).

Definition with_cached (m : memo_state) (w : world) : world :=
  {| session := session w; sockets := sockets w; time := time w;
     cached := m; answered := answered w; arriving := arriving w |}.

Definition with_answer (w : world) : world :=
  {| session := session w; sockets := sockets w; time := time w;
     cached := cached w; answered := S (answered w); arriving := arriving w |}.

Definition elapse (ms : Z) (w : world) : world :=
  {| session := session w; sockets := sockets w; time := time w + ms;
     cached := cached w; answered := answered w; arriving := arriving w |}.

Definition said (w : world) (o : output) : event :=
  match o with
  | io_emit name payload => Broadcast name payload (sockets w)
  | _ => Said o
  end.

Definition after {A : Type} (ev : list event)
  (x : result A * world * list event) : result A * world * list event :=
  let '(r, w, t) := x in (r, w, ev ++ t).

(** A run owns every resolution it starts. One it finds in flight was
    left by another task: the run joins it, and goes on with what it
    settles with ([arriving]), which the cache records as for any
    resolution. *)
Fixpoint exec {A : Type} (up : upstream) (p : prog A) (w : world)
  : result A * world * list event :=
  match p with
  | Ret a => (Ok a, w, [])
  | Throw e => (Err e, w, [])
  | Await s c k =>
      let r := up (answered w) s c in
      after [Called s c r] (exec up (k r) (with_answer w))
  | MemoUse key fetcher k =>
      match memo_use (time w) key 0%nat (cached w) with
      | (_, Fresh v) => after [MemoHit key v] (exec up (k (Ok v)) w)
      | (m, Attach _) =>
          let r := arriving w key in
          let m1 := fst (memo_settle (time w) key r m) in
          after [MemoJoined key] (exec up (k r) (with_cached m1 w))
      | (m, Start) =>
          let '(r, w1, t) := exec up fetcher (with_cached m w) in
          let m1 := fst (memo_settle (time w1) key r (cached w1)) in
          after (MemoFetch key :: t ++ [MemoSettled key r])
            (exec up (k r) (with_cached m1 w1))
      end
  | Out o k => after [said w o] (exec up k w)
  | ReadSession k => exec up (k (session w)) w
  | ReadClientsCount k => exec up (k (Z.of_nat (List.length (sockets w)))) w
  end.

(** Modelled from the spec: [asyncInterval] of [utils.js] (§4.2, §7): a
    self-rescheduling timer; each wake-up comes [ms] after the previous
    execution ended, runs the callback to its end, and a failure of the
    callback is caught and reported at the tick boundary. What happened
    outside the loop while it slept (sockets connecting, a session being
    established) is the change of the world that comes with each wake-up. *)
Fixpoint asyncInterval (up : upstream) (callback : prog unit) (ms : Z)
  (wakeups : list (world → world)) (w : world) : world * list event :=
  match wakeups with
  | [] => (w, [])
  | outside :: rest =>
      let '(r, w1, t) := exec up callback (outside (elapse ms w)) in
      let report :=
        match r with
        | Ok _ => []
        | Err e => [TickFailed e]
        end in
      let '(w2, t2) := asyncInterval up callback ms rest w1 in
      (w2, t ++ report ++ t2)
  end.

(** ** What a trace shows *)

(** The provider call of [info.get] for the playback snapshot, with the
    default market. *)
Definition snapshot_call : call :=
  player_getCurrentlyPlayingTrack (JStr "GB") (JStr "episode").

(** The provider calls of [getContext]. *)
Definition is_context_call (c : call) : bool :=
  match c with
  | playlists_getPlaylist _ | artists_get _ | albums_get _ | shows_get _ => true
  | _ => false
  end.

Fixpoint calls (t : list event) : list call :=
  match t with
  | [] => []
  | Called _ c _ :: rest => c :: calls rest
  | _ :: rest => calls rest
  end.

(** The provider calls made outside the fetchers of the cache: [depth]
    counts the fetchers running. *)
Fixpoint direct_calls (depth : nat) (t : list event) : list call :=
  match t with
  | [] => []
  | Called _ c _ :: rest =>
      match depth with
      | O => c :: direct_calls depth rest
      | S _ => direct_calls depth rest
      end
  | MemoFetch _ :: rest => direct_calls (S depth) rest
  | MemoSettled _ _ :: rest => direct_calls (Nat.pred depth) rest
  | _ :: rest => direct_calls depth rest
  end.

(** The keys under which a trace goes to the cache. *)
Fixpoint memo_keys (t : list event) : list string :=
  match t with
  | [] => []
  | MemoHit key _ :: rest | MemoFetch key :: rest | MemoJoined key :: rest =>
      key :: memo_keys rest
  | _ :: rest => memo_keys rest
  end.

(** What a trace says to the console, the sockets and the bus. *)
Fixpoint outputs (t : list event) : list event :=
  match t with
  | [] => []
  | Said o :: rest => Said o :: outputs rest
  | Broadcast name payload to :: rest => Broadcast name payload to :: outputs rest
  | TickFailed e :: rest => TickFailed e :: outputs rest
  | _ :: rest => outputs rest
  end.

(** The number of executions of [polling] that a trace shows starting. *)
Fixpoint started (t : list event) : nat :=
  match t with
  | [] => 0%nat
  | Said (console_log msg) :: rest =>
      if String.eqb msg "Running centralised polling" then S (started rest)
      else started rest
  | _ :: rest => started rest
  end.

(** [item.uri === uri] for an item of the queue. *)
Definition has_uri (uri item : jsval) : bool :=
  match get_prop item "uri" with
  | Ok u => strict_eq u uri
  | Err _ => false
  end.

(** The answer of [sdkProtect]. *)
Definition unauthenticated : reply :=
  Json (JObj [("error", JBool true); ("message", JStr ERROR_UNAUTHENTICATED)]).

(** ** Sample data

    A small world to run the definitions on: one session, two sockets, an
    empty cache; a snapshot of a track played from a playlist and one of a
    track played from an album; providers that answer, that fail the first
    call, and that refuse to queue. *)

Definition sample_item : jsval :=
  JObj [("id", JStr "t1"); ("name", JStr "Song"); ("uri", JStr "spotify:track:t1");
        ("track_number", JNum 1); ("duration_ms", JNum 1000);
        ("artists", JArr [JObj [("name", JStr "Band")]]);
        ("album", JObj [("name", JStr "Record"); ("images", JArr [])])].

Definition sample_snapshot (context_uri : string) : jsval :=
  JObj [("is_playing", JBool true); ("currently_playing_type", JStr "track");
        ("progress_ms", JNum 10);
        ("context", JObj [("uri", JStr context_uri)]);
        ("item", sample_item)].

Definition sample_playlist : jsval :=
  JObj [("id", JStr "abc"); ("name", JStr "Mix"); ("uri", JStr "spotify:playlist:abc");
        ("owner", JObj [("display_name", JStr "Ann")]);
        ("images", JArr []); ("tracks", JObj [("total", JNum 1)])].

Definition sample_queue : jsval :=
  JObj [("currently_playing", sample_item);
        ("queue", JArr [JObj [("uri", JStr "spotify:track:t2")]])].

(** Answers every call; the snapshot is played from [context_uri]. *)
Definition sample_up (context_uri : string) : upstream :=
  fun _ _ c =>
    match c with
    | player_getCurrentlyPlayingTrack _ _ => Ok (sample_snapshot context_uri)
    | playlists_getPlaylist _ => Ok sample_playlist
    | player_getUsersQueue => Ok sample_queue
    | _ => Ok JNull
    end.

(** Fails the first call made, answers from then on. *)
Definition flaky_up : upstream :=
  fun n s c =>
    match n with
    | O => Err (Rejected (JStr "503"))
    | S _ => sample_up "spotify:playlist:abc" n s c
    end.

(** Hands over the queue but refuses to add to it. *)
Definition refusing_up : upstream :=
  fun n s c =>
    match c with
    | player_addItemToPlaybackQueue _ => Err (Rejected (JStr "403"))
    | _ => sample_up "spotify:playlist:abc" n s c
    end.

Definition sample_world : world :=
  {| session := Some 1%nat; sockets := [7%nat; 8%nat]; time := 0;
     cached := memo_empty; answered := 0; arriving := fun _ => Ok JNull |}.

Definition empty_room : world :=
  {| session := Some 1%nat; sockets := []; time := 0;
     cached := memo_empty; answered := 0; arriving := fun _ => Ok JNull |}.

Definition signed_out : world :=
  {| session := None; sockets := [7%nat; 8%nat]; time := 0;
     cached := memo_empty; answered := 0; arriving := fun _ => Ok JNull |}.

Definition sample_request (segments : list string) : request :=
  {| method := "GET"; path := segments; query := []; sdk := None |}.

Definition sample_cache : cache := {| clock := 0; store := memo_empty |}.

(** Three requesters of one key, among the traffic of another key. *)
Definition sample_events (key : string) : list memo_event :=
  [Use 1%nat key; Use 2%nat key; Use 9%nat "search:x";
   Elapse 500; Settle "search:x" (Ok JNull); Use 3%nat key].

Definition sample_key (parts : list jsval) : string :=
  String.concat ":"
    (omap (fun v => match v with JStr part => Some part | _ => None end) parts).

Definition no_match (_ : jsval) : option (jsval * jsval * jsval) := None.

Definition no_routes (_ : request) : prog reply := Ret Next.

(** ** [SpotifyRegExp], [isSpotifyUrl] and [SpotifyUrl]

    The regular expression of [api.js], as a backtracking matcher: a
    pattern takes what has to match after it as a continuation, so an
    alternative that fails later is retried with the next one, as the
    engine does. The expression has no flags. *)

(** The text a value is turned into when it is used as a string. *)
Fixpoint js_text (v : jsval) : string :=
  match v with
  | JUndefined => "undefined"
  | JNull => "null"
  | JBool true => "true"
  | JBool false => "false"
  | JNum n => pretty n
  | JStr s => s
  | JArr items =>
      String.concat ","
        (List.map (fun x => match x with
                            | JUndefined | JNull => ""
                            | _ => js_text x
                            end) items)
  | JObj _ => "[object Object]"
  end.

Definition matcher := string → option (jsval * jsval * jsval).

(** The rest of [s] after the literal [l]. *)
Fixpoint eat (l s : string) : option string :=
  match l with
  | EmptyString => Some s
  | String c l' =>
      match s with
      | String d s' => if Ascii.eqb c d then eat l' s' else None
      | EmptyString => None
      end
  end.

Definition lit (l : string) (k : matcher) : matcher :=
  fun s => match eat l s with
           | Some rest => k rest
           | None => None
           end.

(** [a|b] *)
Definition or_else (a b : matcher) : matcher :=
  fun s => match a s with
           | Some r => Some r
           | None => b s
           end.

(** [(track|album|artist)], handing the capture to what follows. *)
Definition kind (k : string → matcher) : matcher :=
  or_else (lit "track" (k "track"))
    (or_else (lit "album" (k "album")) (lit "artist" (k "artist"))).

(** [\w|-] *)
Definition is_id_char (c : ascii) : bool :=
  let n := N_of_ascii c in
  (N.leb 48 n && N.leb n 57) || (N.leb 65 n && N.leb n 90)
  || (N.leb 97 n && N.leb n 122) || N.eqb n 95 || N.eqb n 45.

(** The first [n] characters of [s] when each is [\w|-], and the rest. *)
Fixpoint take_id (n : nat) (s : string) : option (string * string) :=
  match n with
  | O => Some (EmptyString, s)
  | S n' =>
      match s with
      | String c s' =>
          if is_id_char c then
            match take_id n' s' with
            | Some (id, rest) => Some (String c id, rest)
            | None => None
            end
          else None
      | EmptyString => None
      end
  end.

(** [((\w|-){22})], handing the capture to what follows. *)
Definition id22 (k : string → matcher) : matcher :=
  fun s => match take_id 22 s with
           | Some (id, rest) => k id rest
           | None => None
           end.

(** The expression matched at the start of the text: the captures
    [typeOne], [typeTwo] and [id]. *)
Definition SpotifyRegExp_at : matcher :=
  let found_one t := lit "/" (id22 (fun id _ => Some (JStr t, JUndefined, JStr id))) in
  let found_two t := lit ":" (id22 (fun id _ => Some (JUndefined, JStr t, JStr id))) in
  let resource :=
    lit "spotify.com/"
      (or_else (kind found_one) (lit "?uri=spotify:" (kind found_two))) in
  let host := or_else (lit "embed." resource) (lit "open." resource) in
  let tail := lit "://" host in
  lit "http" (or_else (lit "s" tail) tail).

(** The leftmost match in the text. *)
Fixpoint SpotifyRegExp_search (s : string) : option (jsval * jsval * jsval) :=
  match SpotifyRegExp_at s with
  | Some r => Some r
  | None =>
      match s with
      | EmptyString => None
      | String _ s' => SpotifyRegExp_search s'
      end
  end.

(** [SpotifyRegExp.exec(url)] *)
Definition SpotifyRegExp (url : jsval) : option (jsval * jsval * jsval) :=
  SpotifyRegExp_search (js_text url).

Definition isSpotifyUrl (url : jsval) : bool :=
  bool_decide (is_Some (SpotifyRegExp url)).

(** [const [_, typeOne, typeTwo, id] = SpotifyRegExp.exec(url)] fails on
    the [null] of a text that does not match. *)
Definition SpotifyUrl (url : jsval) : result (jsval * jsval) :=
  match SpotifyRegExp url with
  | Some (typeOne, typeTwo, id) => Ok (js_or typeOne typeTwo, id)
  | None => Err TypeError
  end.

(** The three kinds of resource the expression names. *)
Definition kinds : list string := ["track"; "album"; "artist"].

(** A Spotify id: 22 characters, each a word character or a dash. *)
Definition is_id (id : string) : bool :=
  Nat.eqb (String.length id) 22 && forallb is_id_char (list_ascii_of_string id).

(** What a match of the expression captures. *)
Definition captured (r : jsval * jsval * jsval) : Prop :=
  ∃ k id, In k kinds ∧ is_id id = true ∧
    (r = (JStr k, JUndefined, JStr id) ∨ r = (JUndefined, JStr k, JStr id)).

(** ** Texts and separators *)

(** The text before the first [sep] of [s], all of [s] when it has none. *)
Fixpoint before (sep : ascii) (s : string) : string :=
  match s with
  | EmptyString => EmptyString
  | String c rest =>
      if Ascii.eqb c sep then EmptyString else String c (before sep rest)
  end.

(** The text after the first [sep] of [s]. *)
Fixpoint after_first (sep : ascii) (s : string) : option string :=
  match s with
  | EmptyString => None
  | String c rest => if Ascii.eqb c sep then Some rest else after_first sep rest
  end.

(** [sep] does not occur in [s]. *)
Definition free_of (sep : ascii) (s : string) : bool :=
  forallb (fun c => negb (Ascii.eqb c sep)) (list_ascii_of_string s).

(** The provider call and the view model that [getContext] uses for a
    kind of context, as its [switch] has them. *)
Definition context_lookup (kind : string) (id : jsval)
  : option (call * (jsval → result jsval)) :=
  if String.eqb kind "playlist" then Some (playlists_getPlaylist id, trim_playlist)
  else if String.eqb kind "artist" then Some (artists_get id, trim_artist)
  else if String.eqb kind "album" then Some (albums_get id, trim_album)
  else if String.eqb kind "show" then Some (shows_get id, trim_show)
  else None.

(** ** View models

    A view model repeats its identity in [normalised]: the two agree. *)
Definition normalised_agrees (view : jsval) : Prop :=
  let normalised := obj_get (spread view) "normalised" in
  obj_get (spread normalised) "id" = obj_get (spread view) "id" ∧
  obj_get (spread normalised) "title" = obj_get (spread view) "title" ∧
  obj_get (spread normalised) "uri" = obj_get (spread view) "uri" ∧
  obj_get (spread normalised) "image" = obj_get (spread view) "image".

(** One of the six [trim] functions. *)
Definition trims : list (jsval → result jsval) :=
  [trim_track; trim_playlist; trim_artist; trim_album; trim_episode; trim_show].

(** An entry of the user's queue as the provider types it: absent, or an
    item whose [type] is track or episode. *)
Definition queue_item (item : jsval) : Prop :=
  truthy item = true →
  get_prop item "type" = Ok (JStr "track") ∨
  get_prop item "type" = Ok (JStr "episode").

(** ** Handlers *)

(** The four playback commands of the router: the route, the operation of
    [SpotifyInteract.player], the provider call it makes, the notice sent
    to the sockets and the event put on the bus. *)
Definition commands
  : list (string * (option SpotifyApi → prog jsval) * call * string * string) :=
  [("skipForward", player_forward, player_skipToNext,
    "Skipped forward", "skippedForward");
   ("skipBackward", player_back, player_skipToPrevious,
    "Skipped back", "skippedBackward");
   ("play", player_play, player_startResumePlayback, "Pressed play", "play");
   ("pause", player_pause, player_pausePlayback, "Pressed pause", "pause")].

(** The answer of the error-handling middleware. *)
Definition general_error : reply :=
  Json (JObj [("error", JBool true); ("message", JStr ERROR_GENERAL)]).

(** ** More sample data *)

(** A provider that answers every call with [v]. *)
Definition answering (v : jsval) : upstream := fun _ _ _ => Ok v.

(** A snapshot that is playing outside any context. *)
Definition contextless_snapshot : jsval :=
  JObj [("is_playing", JBool true); ("currently_playing_type", JStr "track");
        ("progress_ms", JNum 10); ("context", JNull); ("item", sample_item)].

(** A queue as the provider types its entries. *)
Definition typed_queue : jsval :=
  JObj [("currently_playing", JObj [("type", JStr "track"); ("id", JStr "t1")]);
        ("queue", JArr [JObj [("type", JStr "episode"); ("id", JStr "e1")];
                        JObj [("type", JStr "track"); ("id", JStr "t2")]])].

Definition sample_album : jsval :=
  JObj [("id", JStr "a1"); ("name", JStr "Record"); ("release_date", JStr "1999-05-01");
        ("uri", JStr "spotify:album:a1"); ("images", JArr []);
        ("total_tracks", JNum 1);
        ("tracks",
         JObj [("items",
                JArr [JObj [("id", JStr "t1"); ("name", JStr "Song");
                            ("uri", JStr "spotify:track:t1");
                            ("track_number", JNum 1);
                            ("artists", JArr [JObj [("name", JStr "Band")]])]])])].

Definition sample_id : string := "0123456789abcdefghij-_".

Definition sample_address : string :=
  "https://open.spotify.com/album/0123456789abcdefghij-_?si=1".

(** A request for [segments] with [fields] as its query. *)
Definition sample_query (verb : string) (segments : list string)
  (fields : list (string * jsval)) : request :=
  {| method := verb; path := segments; query := fields; sdk := None |}.

(** * Properties *)

(** ** Running programs *)

Lemma after_after {A} (a b : list event) (x : result A * world * list event) :
  after a (after b x) = after (a ++ b) x.
Proof. destruct x as [[r w] t]. cbn. by rewrite <- app_assoc. Qed.

Lemma after_nil {A} (x : result A * world * list event) : after [] x = x.
Proof. by destruct x as [[r w] t]. Qed.

(** [exec] runs a sequence in order and stops at the first failure. *)
Lemma exec_bind {A B} up (p : prog A) (f : A → prog B) w :
  exec up (p ≫= f) w =
  let '(r, w1, t1) := exec up p w in
  match r with
  | Ok a => after t1 (exec up (f a) w1)
  | Err e => (Err e, w1, t1)
  end.
Proof.
  change (p ≫= f) with (bind p f).
  revert B f w. induction p using prog_ind; intros B f w; cbn.
  - by rewrite after_nil.
  - done.
  - rewrite H. destruct (exec up (k _) _) as [[r w1] t1]. cbn.
    destruct r; [by rewrite after_after | done].
  - destruct (memo_use _ _ _ _) as [m [v|ws|]].
    + rewrite H. destruct (exec up (k _) _) as [[r w1] t1]. cbn.
      destruct r; [by rewrite after_after | done].
    + cbn zeta. rewrite H. destruct (exec up (k _) _) as [[r w1] t1]. cbn.
      destruct r; [by rewrite after_after | done].
    + destruct (exec up p _) as [[r w1] t1].
      rewrite H. destruct (exec up (k _) _) as [[r2 w2] t2]. cbn.
      destruct r2; [by rewrite after_after | done].
  - rewrite IHp. destruct (exec up p w) as [[r w1] t1]. cbn.
    destruct r; [by rewrite after_after | done].
  - apply H.
  - apply H.
Qed.

Lemma exec_lift {A} up (r : result A) w : exec up (lift r) w = (r, w, []).
Proof. by destruct r. Qed.

Lemma exec_call_on up s c w :
  exec up (call_on (Some s) c) w =
  (up (answered w) s c, with_answer w, [Called s c (up (answered w) s c)]).
Proof. cbn. by destruct (up (answered w) s c). Qed.

Lemma default_market : opt DEFAULT_OPTS "market" = JStr "GB".
Proof. reflexivity. Qed.

(** ** [getContext] and [context.get] *)

Lemma guarded_fetch_exec up sdk c (trim : jsval → result jsval)
  (g : jsval → jsval) w :
  exec up
    (try_catch
       (call_on sdk c ≫= λ x, lift (trim x) ≫= λ t, Ret (g t))
       (λ _, Ret (JObj []))) w =
  match sdk with
  | None => (Ok (JObj []), w, [])
  | Some s =>
      let x := up (answered w) s c in
      (Ok (match x ≫= trim with
           | Ok t => g t
           | Err _ => JObj []
           end),
       with_answer w, [Called s c x])
  end.
Proof.
  destruct sdk as [s|]; cbn; [|done].
  destruct (up (answered w) s c) as [v|e]; cbn; [|done].
  by destruct (trim v).
Qed.

(** [getContext] makes at most one call, leaves the cache alone, and with
    a string for [uri] never fails: a failed call gives the empty object. *)
Lemma getContext_exec up sdk uri w :
  ∃ r w1 t, exec up (getContext sdk uri) w = (r, w1, t) ∧
    cached w1 = cached w ∧ time w1 = time w ∧ sockets w1 = sockets w ∧
    (t = [] ∨ ∃ s c x, t = [Called s c x] ∧ is_context_call c = true) ∧
    (∀ key, uri = JStr key → ∃ v, r = Ok v ∧
       ((∃ s c e, t = [Called s c (Err e)]) → v = JObj [])).
Proof.
  unfold getContext. rewrite exec_bind, exec_lift.
  destruct (deconstructUri uri) as [parts|e] eqn:Hd.
  2:{ eexists _, _, _. split; [done|]. repeat split; auto.
      intros key ->. done. }
  rewrite after_nil. cbn zeta.
  repeat match goal with
         | |- context [if strict_eq ?a ?b then _ else _] =>
             destruct (strict_eq a b)
         end;
    try (rewrite guarded_fetch_exec; destruct sdk as [s|];
         [ eexists _, _, _; split; [done|]; repeat split; auto;
           [ right; by eexists _, _, _
           | intros key _; eexists; split; [done|];
             intros (s' & c' & e' & [= -> -> He]); cbn zeta; by rewrite He ]
         | eexists _, _, _; split; [done|]; repeat split; auto;
           intros key _; eexists; split; done ]).
  cbn. eexists _, _, _. split; [done|]. repeat split; auto.
  intros key _. eexists; split; done.
Qed.

Lemma memo_await_exec up key fetcher w :
  exec up (memo_await key fetcher) w =
  match memo_use (time w) key 0%nat (cached w) with
  | (_, Fresh v) => (Ok v, w, [MemoHit key v])
  | (m, Attach _) =>
      let r := arriving w key in
      (r, with_cached (fst (memo_settle (time w) key r m)) w, [MemoJoined key])
  | (m, Start) =>
      let '(r, w1, t) := exec up fetcher (with_cached m w) in
      (r, with_cached (fst (memo_settle (time w1) key r (cached w1))) w1,
       MemoFetch key :: t ++ [MemoSettled key r])
  end.
Proof.
  unfold memo_await. cbn.
  destruct (memo_use (time w) key 0%nat (cached w)) as [m [v|ws|]]; try done.
  - by rewrite exec_lift.
  - destruct (exec up fetcher (with_cached m w)) as [[r w1] t].
    rewrite exec_lift. cbn. by rewrite app_nil_r.
Qed.

(** [context.get] calls nothing but the provider operations of
    [getContext], says nothing, and goes to the cache under [uri] only. *)
Lemma context_get_exec up sdk uri w :
  ∃ r w1 t, exec up (context_get sdk uri) w = (r, w1, t) ∧
    time w1 = time w ∧ sockets w1 = sockets w ∧
    forallb is_context_call (calls t) = true ∧
    outputs t = [] ∧
    (∀ key, In key (memo_keys t) → uri = JStr key).
Proof.
  destruct (getContext_exec up sdk uri w) as (r & w1 & t & He & _ & Ht & Hs & Hc & _).
  destruct uri as [| |b|n|key|items|fields];
    try (cbn [context_get]; rewrite He; eexists _, _, _; split; [done|];
         repeat split; try done;
         destruct Hc as [->|(s & c & x & -> & Hc)]; cbn; by rewrite ?Hc).
  clear r w1 t He Ht Hs Hc. cbn [context_get]. rewrite memo_await_exec.
  destruct (memo_use (time w) key 0%nat (cached w)) as [m [v|ws|]].
  - eexists _, _, _. split; [done|]. repeat split; try done.
    cbn. by intros k [<-|[]].
  - eexists _, _, _. split; [done|]. repeat split; try done.
    cbn. by intros k [<-|[]].
  - destruct (getContext_exec up sdk (JStr key) (with_cached m w))
      as (r & w1 & t & He & _ & Ht & Hs & Hc & _).
    rewrite He. eexists _, _, _. split; [done|].
    destruct Hc as [->|(s & c & x & -> & Hc)]; cbn; rewrite ?Hc;
      repeat split; try done; by intros k [<-|[]].
Qed.

(** ** [info.get] *)

(** [info.get] starts with the provider call for the snapshot; after it
    come only the calls of [getContext], nothing is said, and the cache is
    used under the context uri of the snapshot only. *)
Lemma info_get_exec up s w :
  ∃ r w1 t,
    exec up (info_get (Some s) JUndefined) w =
    (r, w1, Called s snapshot_call (up (answered w) s snapshot_call) :: t) ∧
    sockets w1 = sockets w ∧
    forallb is_context_call (calls t) = true ∧
    outputs t = [] ∧
    (∀ key, In key (memo_keys t) →
       ∃ track context,
         up (answered w) s snapshot_call = Ok track ∧
         get_prop track "context" = Ok context ∧
         get_prop context "uri" = Ok (JStr key)).
Proof.
  unfold info_get. cbn [or_default]. rewrite default_market.
  fold snapshot_call. rewrite exec_bind, exec_call_on.
  destruct (up (answered w) s snapshot_call) as [track|e] eqn:Hup.
  2:{ eexists _, _, []. repeat split; done. }
  destruct (truthy track); cbn [negb].
  2:{ cbn. eexists _, _, []. repeat split; done. }
  rewrite exec_bind, exec_lift.
  destruct (get_prop track "context") as [context|e] eqn:Hcontext; cbn [mbind result_bind].
  2:{ cbn. eexists _, _, []. repeat split; done. }
  destruct (get_prop context "uri") as [uri|e] eqn:Huri.
  2:{ cbn. eexists _, _, []. repeat split; done. }
  rewrite after_nil, exec_bind.
  destruct (context_get_exec up (Some s) uri (with_answer w))
    as (r & w1 & t & He & _ & Hs & Hc & Ho & Hk).
  rewrite He. destruct r as [v|e].
  - rewrite exec_lift. cbn. rewrite app_nil_r.
    eexists _, _, _. split; [done|]. repeat split; try done.
    intros key Hin. apply Hk in Hin as ->. by eexists _, _.
  - cbn. eexists _, _, _. split; [done|]. repeat split; try done.
    intros key Hin. apply Hk in Hin as ->. by eexists _, _.
Qed.

(** ** The poll callback *)

Lemma polling_exec up w :
  exec up polling w =
  match session w with
  | None => (Ok tt, w, [Said (console_log "Running centralised polling")])
  | Some s =>
      if Z.ltb 0 (Z.of_nat (List.length (sockets w))) then
        let '(r, w1, t) := exec up (info_get (Some s) JUndefined) w in
        match r with
        | Ok info =>
            (Ok tt, w1,
             Said (console_log "Running centralised polling") :: t
             ++ [Broadcast "info" info (sockets w1);
                 Said (console_log "Ran centralised polling")])
        | Err e =>
            (Err e, w1, Said (console_log "Running centralised polling") :: t)
        end
      else (Ok tt, w, [Said (console_log "Running centralised polling")])
  end.
Proof.
  unfold polling. cbn -[info_get Z.ltb Z.of_nat].
  destruct (session w) as [s|] eqn:Hs; cbn -[info_get Z.ltb Z.of_nat]; [|done].
  destruct (Z.ltb 0 (Z.of_nat (List.length (sockets w)))); [|done].
  cbn -[info_get]. rewrite Hs.
  rewrite exec_bind.
  destruct (exec up (info_get (Some s) JUndefined) w) as [[r w1] t].
  destruct r; done.
Qed.

Lemma audience_positive (l : list nat) :
  Z.ltb 0 (Z.of_nat (List.length l)) = negb (bool_decide (l = [])).
Proof. by destruct l. Qed.

(** C5: while [sdk.current] is null a tick returns normally, leaves the
    process as it was, calls nothing and emits nothing; its console line
    is all it does. *)
Theorem polling_without_session up w :
  session w = None →
  exec up polling w
  = (Ok tt, w, [Said (console_log "Running centralised polling")]).
Proof. intros Hs. by rewrite polling_exec, Hs. Qed.

(** What [info.get] does with the snapshot the provider hands over. *)
Lemma info_get_snapshot up s w track :
  up (answered w) s snapshot_call = Ok track →
  exec up (info_get (Some s) JUndefined) w =
  if negb (truthy track) then
    (Ok (JObj [("noTrack", JBool true)]), with_answer w,
     [Called s snapshot_call (Ok track)])
  else
    match get_prop track "context" ≫= λ c, get_prop c "uri" with
    | Err e => (Err e, with_answer w, [Called s snapshot_call (Ok track)])
    | Ok uri =>
        after [Called s snapshot_call (Ok track)]
          (exec up
             (context_get (Some s) uri ≫= λ context,
              lift (isPlaying ← get_prop track "is_playing";
                    kind ← get_prop track "currently_playing_type";
                    item ← get_prop track "item";
                    trimmed ← (if strict_eq kind (JStr "episode")
                               then trim_episode item else trim_track item);
                    current ← get_prop track "progress_ms";
                    duration ← get_prop item "duration_ms";
                    Ok (JObj [("isPlaying", isPlaying); ("track", trimmed);
                              ("context", context);
                              ("player",
                               JObj [("current", current);
                                     ("duration", duration)])])))
             (with_answer w))
    end.
Proof.
  intros Hup. unfold info_get. cbn [or_default]. rewrite default_market.
  fold snapshot_call. rewrite exec_bind, exec_call_on, Hup.
  destruct (truthy track); cbn [negb]; [|done].
  rewrite exec_bind, exec_lift.
  destruct (get_prop track "context" ≫= λ c, get_prop c "uri"); [|done].
  by rewrite after_nil.
Qed.

Lemma info_get_rejected up s w e :
  up (answered w) s snapshot_call = Err e →
  exec up (info_get (Some s) JUndefined) w
  = (Err e, with_answer w, [Called s snapshot_call (Err e)]).
Proof.
  intros Hup. unfold info_get. cbn [or_default]. rewrite default_market.
  fold snapshot_call. by rewrite exec_bind, exec_call_on, Hup.
Qed.

(** C4, as the code has it: with a session established, a tick with no
    socket connected calls nothing and emits nothing; with at least one
    socket connected it performs the fetch ([info.get]: the provider call
    for the snapshot and, when something is playing, the context lookup,
    which says nothing and calls nothing but the operations of
    [getContext]), and it emits the result to every connected socket
    exactly when the fetch resolves: [{noTrack: true}] when nothing is
    playing, otherwise the view of the snapshot with its context. When
    the fetch rejects (the provider call is rejected, the snapshot has no
    context to read a uri from, the context lookup rejects, or the view
    cannot be built) the tick emits nothing and ends with that error. *)
Theorem polling_audience_gate up w s :
  session w = Some s →
  (sockets w = [] →
   exec up polling w
   = (Ok tt, w, [Said (console_log "Running centralised polling")])) ∧
  (sockets w ≠ [] →
   let answer := up (answered w) s snapshot_call in
   let running := Said (console_log "Running centralised polling") in
   let fetched := Called s snapshot_call answer in
   let ran := Said (console_log "Ran centralised polling") in
   exec up polling w =
   match answer with
   | Err e => (Err e, with_answer w, [running; fetched])
   | Ok track =>
       if negb (truthy track) then
         (Ok tt, with_answer w,
          [running; fetched;
           Broadcast "info" (JObj [("noTrack", JBool true)]) (sockets w); ran])
       else
         match get_prop track "context" ≫= λ c, get_prop c "uri" with
         | Err e => (Err e, with_answer w, [running; fetched])
         | Ok uri =>
             let '(context, w1, t) :=
               exec up (context_get (Some s) uri) (with_answer w) in
             match
               context ≫= λ context,
                 isPlaying ← get_prop track "is_playing";
                 kind ← get_prop track "currently_playing_type";
                 item ← get_prop track "item";
                 trimmed ← (if strict_eq kind (JStr "episode")
                            then trim_episode item else trim_track item);
                 current ← get_prop track "progress_ms";
                 duration ← get_prop item "duration_ms";
                 Ok (JObj [("isPlaying", isPlaying); ("track", trimmed);
                           ("context", context);
                           ("player",
                            JObj [("current", current);
                                  ("duration", duration)])])
             with
             | Ok info =>
                 (Ok tt, w1,
                  running :: fetched :: t
                  ++ [Broadcast "info" info (sockets w); ran])
             | Err e => (Err e, w1, running :: fetched :: t)
             end
         end
   end ∧
   ∀ uri,
     let t := snd (exec up (context_get (Some s) uri) (with_answer w)) in
     outputs t = [] ∧ forallb is_context_call (calls t) = true).
Proof.
  intros Hs. rewrite polling_exec, Hs, audience_positive. split.
  - intros ->. done.
  - intros Hne. rewrite bool_decide_eq_false_2 by done. cbn [negb]. cbn zeta.
    split.
    2:{ intros uri.
        destruct (context_get_exec up (Some s) uri (with_answer w))
          as (r & w1 & t & -> & _ & _ & Hc & Ho & _).
        done. }
    destruct (up (answered w) s snapshot_call) as [track|e] eqn:Hup.
    2:{ by rewrite (info_get_rejected up s w e Hup). }
    rewrite (info_get_snapshot up s w track Hup).
    destruct (truthy track); cbn [negb]; [|done].
    destruct (get_prop track "context" ≫= λ c, get_prop c "uri") as [uri|e];
      [|done].
    rewrite exec_bind.
    destruct (context_get_exec up (Some s) uri (with_answer w))
      as (r & w1 & t & -> & _ & Hso & _).
    cbn [sockets with_answer] in Hso.
    destruct r as [context|e]; cbn [mbind result_bind]; [|done].
    match goal with
    | |- context [lift ?x] => destruct x
    end; cbn; by rewrite ?app_nil_r, ?Hso.
Qed.

(** A tick that fetches gets the playback snapshot from the provider
    directly, outside the cache, whatever the cache holds; inside
    [info.get] only the context is resolved through the cache, under the
    context uri of the snapshot; and what [info.get] resolved with is
    emitted to the connected sockets as [info]. *)
Lemma polling_fetch_direct up w s :
  session w = Some s → sockets w ≠ [] →
  ∃ t,
    snd (exec up polling w)
    = Said (console_log "Running centralised polling")
      :: Called s snapshot_call (up (answered w) s snapshot_call) :: t ∧
    hd_error (direct_calls 0 (snd (exec up polling w))) = Some snapshot_call ∧
    (∀ key, In key (memo_keys t) →
       ∃ track context,
         up (answered w) s snapshot_call = Ok track ∧
         get_prop track "context" = Ok context ∧
         get_prop context "uri" = Ok (JStr key)) ∧
    (∀ info, fst (fst (exec up (info_get (Some s) JUndefined) w)) = Ok info →
       In (Broadcast "info" info (sockets w)) t).
Proof.
  intros Hs Hne. rewrite polling_exec, Hs, audience_positive.
  rewrite bool_decide_eq_false_2 by done. cbn [negb].
  destruct (info_get_exec up s w) as (r & w1 & t & He & Hso & _ & _ & Hk).
  rewrite He, Hso. destruct r as [info|e]; cbn [fst snd].
  - eexists. split; [done|]. split; [done|]. split.
    + intros key Hin. apply Hk. revert Hin. clear.
      induction t as [|[] t IH]; cbn; try tauto. all: intros [|]; auto.
    + intros info' [= <-]. apply in_or_app. right. by left.
  - eexists. split; [done|]. split; [done|]. split; [exact Hk | done].
Qed.

(** ** [queue.add] *)

(** On a queue without [null] entries, [queue.some(...)] is a search for
    an item with the given uri. *)
Lemma some_result_uri uri items :
  Forall (λ item, item ≠ JNull ∧ item ≠ JUndefined) items →
  some_result (λ item, u ← get_prop item "uri"; Ok (strict_eq u uri)) items
  = Ok (existsb (has_uri uri) items).
Proof.
  induction 1 as [|item items [Hnull Hundef] _ IH]; [done|].
  cbn [some_result existsb]. unfold has_uri at 1.
  destruct (get_prop item "uri") as [u|e] eqn:Hu; [|by destruct item].
  cbn [mbind result_bind]. destruct (strict_eq u uri); [done | exact IH].
Qed.

(** C9, as the code has it: when the provider hands over the user's queue,
    [queue.add] answers [{success: false}] without calling
    [addItemToPlaybackQueue] if an item of the queue already has the uri;
    otherwise it calls [addItemToPlaybackQueue(uri)] exactly once and
    answers [{success: true}] when that call resolves, and fails with the
    call's error when it rejects. *)
Theorem queue_add_checks_queue up w s uri users_queue items :
  up (answered w) s player_getUsersQueue = Ok users_queue →
  get_prop users_queue "queue" = Ok (JArr items) →
  Forall (λ item, item ≠ JNull ∧ item ≠ JUndefined) items →
  exec up (queue_add (Some s) uri) w =
  if existsb (has_uri uri) items then
    (Ok (JObj [("success", JBool false)]), with_answer w,
     [Called s player_getUsersQueue (Ok users_queue)])
  else
    let added :=
      up (S (answered w)) s (player_addItemToPlaybackQueue uri) in
    (match added with
     | Ok _ => Ok (JObj [("success", JBool true)])
     | Err e => Err e
     end,
     with_answer (with_answer w),
     [Called s player_getUsersQueue (Ok users_queue);
      Called s (player_addItemToPlaybackQueue uri) added]).
Proof.
  intros Hup Hqueue Hitems. unfold queue_add.
  rewrite exec_bind, exec_call_on, Hup. cbn [after app].
  rewrite exec_bind, exec_lift, Hqueue, after_nil.
  rewrite exec_bind, exec_lift. cbn [js_some].
  rewrite (some_result_uri uri items Hitems), after_nil.
  destruct (existsb _ items); [done|].
  rewrite exec_bind, exec_call_on. cbn [with_answer answered].
  by destruct (up (S (answered w)) s (player_addItemToPlaybackQueue uri)).
Qed.

(** ** The API behind [sdkProtect] *)

Lemma serve_with_api up ApiRoutes req rest w :
  path req = "api" :: rest →
  exec up (serve_with ApiRoutes req) w =
  let sub := {| method := method req; path := rest; query := query req;
                sdk := session w |} in
  match session w with
  | None => (Ok unauthenticated, w, [])
  | Some _ => exec up (ApiRoutes sub ≫= on_error) w
  end.
Proof.
  intros Hpath. unfold serve_with. cbn [exec]. rewrite exec_bind.
  unfold mounted, attach. cbn [path]. rewrite Hpath.
  change (same_name "api" "spotify") with false.
  change (same_name "api" "api") with true.
  cbn -[exec on_error mbind].
  rewrite (exec_bind up (Ret Next)). cbn [exec]. rewrite after_nil.
  unfold sdkProtect. cbn [sdk].
  destruct (session w) as [s|]; cbn [bool_decide negb]; [|done].
  rewrite bool_decide_eq_true_2 by (by eexists). cbn [negb].
  by rewrite exec_bind.
Qed.

(** C8: while [sdk.current] is null, a request under [/api] is answered by
    [sdkProtect] with [{error: true, message: UNAUTHENTICATED}]; whatever
    router is mounted behind it is not run, so no route handler runs, the
    provider is not called, nothing is said and the process is left as it
    was. *)
Theorem sdkProtect_refuses up api_opts req rest w :
  session w = None →
  path req = "api" :: rest →
  exec up (serve api_opts req) w = (Ok unauthenticated, w, []) ∧
  ∀ ApiRoutes, exec up (serve_with ApiRoutes req) w = (Ok unauthenticated, w, []).
Proof.
  intros Hs Hpath. split; [unfold serve|intros ApiRoutes];
    by rewrite (serve_with_api _ _ _ rest), Hs.
Qed.

(** C10: a [GET /api/health] is answered by [sdkProtect] while
    [sdk.current] is null and by the handler otherwise, and the handler
    then always says [authenticated: true]: no run of the application
    produces its [authenticated: false]. *)
Theorem health_is_authenticated up api_opts req w :
  path req = ["api"; "health"] →
  is_get req = true →
  exec up (serve api_opts req) w =
  (Ok (match session w with
       | None => unauthenticated
       | Some _ => Json (JObj [("success", JBool true);
                               ("authenticated", JBool true)])
       end), w, []) ∧
  fst (fst (exec up (serve api_opts req) w))
  ≠ Ok (Json (JObj [("success", JBool true); ("authenticated", JBool false)])).
Proof.
  intros Hpath Hget. unfold serve.
  rewrite (serve_with_api _ _ _ ["health"]) by done. cbn zeta.
  destruct (session w) as [s|]; [|done].
  rewrite exec_bind. unfold run. cbn [app].
  unfold is_get in *. cbn [method]. rewrite Hget.
  cbn. done.
Qed.

Lemma dispatch_info options req :
  path req = ["info"] →
  dispatch (routes options) req
  = apiWrapper (info_get (sdk req) (opt options "market")).
Proof. intros Hpath. unfold routes. cbn [dispatch]. by rewrite Hpath. Qed.

(** A [GET /api/info] with a session established starts with its own
    provider call for the snapshot, whatever the cache holds. *)
Lemma info_request_direct up api_opts req w s :
  session w = Some s →
  path req = ["api"; "info"] →
  is_get req = true →
  let c :=
    player_getCurrentlyPlayingTrack
      (or_default (opt (merge_opts api_opts) "market") (JStr "GB"))
      (JStr "episode") in
  ∃ r w1 t,
    exec up (serve api_opts req) w
    = (r, w1, Called s c (up (answered w) s c) :: t).
Proof.
  intros Hs Hpath Hget c. unfold serve.
  rewrite (serve_with_api _ _ _ ["info"]) by done. cbn zeta. rewrite Hs.
  rewrite exec_bind. unfold run. cbn [app].
  unfold is_get in *. cbn [method]. rewrite Hget.
  rewrite dispatch_info by done. cbn [sdk].
  unfold apiWrapper, info_get. rewrite default_market. fold c.
  unfold call_on, await. cbn [mbind prog_bind bind try_catch exec].
  match goal with
  | |- context [after _ ?x] => destruct x as [[r w1] t]
  end.
  cbn [after app]. destruct r as [a|e]; [|by eexists _, _, _].
  destruct (exec up (on_error a) w1) as [[r2 w2] t2]. cbn. by eexists _, _, _.
Qed.

(** C2, as the code has it: a tick that fetches gets the playback snapshot
    from the provider directly, outside the cache, whatever the cache
    holds; inside [info.get] only the context is resolved through the
    cache, under the context uri of the snapshot; what [info.get] resolved
    with is emitted to the connected sockets as [info]; and a
    [GET /api/info] makes its own provider call for the snapshot too. *)
Theorem snapshot_fetched_directly up w s :
  session w = Some s → sockets w ≠ [] →
  (∃ t,
     snd (exec up polling w)
     = Said (console_log "Running centralised polling")
       :: Called s snapshot_call (up (answered w) s snapshot_call) :: t ∧
     hd_error (direct_calls 0 (snd (exec up polling w))) = Some snapshot_call ∧
     (∀ key, In key (memo_keys t) →
        ∃ track context,
          up (answered w) s snapshot_call = Ok track ∧
          get_prop track "context" = Ok context ∧
          get_prop context "uri" = Ok (JStr key)) ∧
     (∀ info, fst (fst (exec up (info_get (Some s) JUndefined) w)) = Ok info →
        In (Broadcast "info" info (sockets w)) t)) ∧
  ∀ api_opts req,
    path req = ["api"; "info"] → is_get req = true →
    let c :=
      player_getCurrentlyPlayingTrack
        (or_default (opt (merge_opts api_opts) "market") (JStr "GB"))
        (JStr "episode") in
    ∃ r w1 t,
      exec up (serve api_opts req) w
      = (r, w1, Called s c (up (answered w) s c) :: t).
Proof.
  intros Hs Hne. split; [by apply polling_fetch_direct|].
  intros api_opts req Hpath Hget. by apply info_request_direct.
Qed.

(** ** The options of [run] *)

Lemma opt_merge opts name :
  opt (merge_opts opts) name
  = default (opt DEFAULT_OPTS name) (opts !! name).
Proof.
  unfold opt, merge_opts. rewrite lookup_union.
  destruct (opts !! name), (DEFAULT_OPTS !! name); done.
Qed.

Lemma opt_merge_insert opts name other v :
  other ≠ name →
  opt (merge_opts (<[other := v]> opts)) name = opt (merge_opts opts) name.
Proof. intros Hne. by rewrite !opt_merge, lookup_insert_ne. Qed.

(** [run] reads its options through these four names only. *)
Lemma run_reads opts opts' :
  (∀ name, In name ["market"; "searchQueryLimit"; "centralisedPolling";
                    "centralisedPollingTimer"] →
     opt (merge_opts opts') name = opt (merge_opts opts) name) →
  run opts' = run opts.
Proof.
  intros H. unfold run, routes, search_handler. cbn zeta.
  rewrite (H "market"), (H "searchQueryLimit"), (H "centralisedPolling"),
    (H "centralisedPollingTimer") by (cbn; tauto).
  done.
Qed.

(** C7, as the code has it: [run] starts the poll loop when the option
    [centralisedPolling] (default [true]) is truthy and not otherwise, and
    hands [asyncInterval] the option [centralisedPollingTimer] (default
    5000) as the delay; options named [pollIntervalMs] or [cacheTtlMs] are
    not read by [run]. *)
Theorem run_polling_options opts :
  interval (run opts)
  = (if truthy (default (JBool true) (opts !! "centralisedPolling"))
     then Some (polling,
                default (JNum 5000) (opts !! "centralisedPollingTimer"))
     else None) ∧
  ∀ v, run (<["pollIntervalMs" := v]> opts) = run opts ∧
       run (<["cacheTtlMs" := v]> opts) = run opts.
Proof.
  split.
  - unfold run. cbn [interval]. by rewrite !opt_merge.
  - intros v. split; apply run_reads; intros name Hin;
      apply opt_merge_insert; intros <-; cbn in Hin;
      repeat (destruct Hin as [Hin|Hin]; [discriminate Hin|]); done.
Qed.

(** ** The poll loop *)

Lemma started_app t1 t2 : started (t1 ++ t2) = (started t1 + started t2)%nat.
Proof.
  induction t1 as [|ev t1 IH]; [done|].
  destruct ev as [| | | | |[]| |]; cbn; try done.
  destruct (String.eqb _ _); cbn; by rewrite IH.
Qed.

Lemma started_quiet t : outputs t = [] → started t = 0%nat.
Proof. induction t as [|[] t IH]; cbn; try done; auto. Qed.

(** Every execution of the callback shows as exactly one start. *)
Lemma polling_started up w : started (snd (exec up polling w)) = 1%nat.
Proof.
  rewrite polling_exec. destruct (session w) as [s|]; [|done].
  destruct (Z.ltb 0 _); [|done].
  destruct (info_get_exec up s w) as (r & w1 & t & He & _ & _ & Ho & _).
  rewrite He. destruct r; cbn; rewrite ?started_app, (started_quiet t Ho); done.
Qed.

Lemma asyncInterval_app up callback ms l1 l2 w :
  asyncInterval up callback ms (l1 ++ l2) w =
  let '(w1, t1) := asyncInterval up callback ms l1 w in
  let '(w2, t2) := asyncInterval up callback ms l2 w1 in
  (w2, t1 ++ t2).
Proof.
  revert w. induction l1 as [|outside l1 IH]; intros w; cbn.
  - by destruct (asyncInterval up callback ms l2 w).
  - destruct (exec up callback (outside (elapse ms w))) as [[r w1] t].
    rewrite IH. destruct (asyncInterval up callback ms l1 w1) as [w2 t2].
    destruct (asyncInterval up callback ms l2 w2) as [w3 t3].
    by rewrite <- !app_assoc.
Qed.

Lemma asyncInterval_started up ms wakeups w :
  started (snd (asyncInterval up polling ms wakeups w)) = List.length wakeups.
Proof.
  revert w. induction wakeups as [|outside wakeups IH]; intros w; [done|].
  cbn [asyncInterval]. pose proof (polling_started up (outside (elapse ms w))) as Hp.
  destruct (exec up polling (outside (elapse ms w))) as [[r w1] t].
  specialize (IH w1). destruct (asyncInterval up polling ms wakeups w1) as [w2 t2].
  cbn [snd] in *. rewrite !started_app, Hp, IH. by destruct r.
Qed.

(** C6: whatever a tick does, the loop goes on: a run of the loop through
    any wake-up, whether that tick returns or fails, continues with the
    remaining wake-ups exactly as the loop would run them from the state
    the tick left, and each of them starts its tick. *)
Theorem asyncInterval_outlives_failures up ms before outside rest w :
  let '(w1, t1) := asyncInterval up polling ms before w in
  let '(r, w2, t2) := exec up polling (outside (elapse ms w1)) in
  let '(w3, t3) := asyncInterval up polling ms rest w2 in
  asyncInterval up polling ms (before ++ outside :: rest) w
  = (w3, t1 ++ t2
         ++ match r with
            | Ok _ => []
            | Err e => [TickFailed e]
            end ++ t3) ∧
  started t3 = List.length rest ∧
  started (snd (asyncInterval up polling ms (before ++ outside :: rest) w))
  = List.length (before ++ outside :: rest).
Proof.
  pose proof (asyncInterval_app up polling ms before (outside :: rest) w) as Happ.
  pose proof (asyncInterval_started up ms (before ++ outside :: rest) w) as Hall.
  destruct (asyncInterval up polling ms before w) as [w1 t1].
  cbn [asyncInterval] in Happ.
  destruct (exec up polling (outside (elapse ms w1))) as [[r w2] t2].
  pose proof (asyncInterval_started up ms rest w2) as Hrest.
  destruct (asyncInterval up polling ms rest w2) as [w3 t3].
  split; [exact Happ | split; [exact Hrest | exact Hall]].
Qed.

(** ** The cache under concurrent requesters *)

Lemma invokers_app key o1 o2 :
  invokers key (o1 ++ o2) = invokers key o1 ++ invokers key o2.
Proof.
  induction o1 as [|[k c|c r|k] o1 IH]; cbn; try done.
  case_bool_decide; cbn; by rewrite IH.
Qed.

Lemma settlements_app key o1 o2 :
  settlements key (o1 ++ o2) = (settlements key o1 + settlements key o2)%nat.
Proof.
  induction o1 as [|[k c|c r|k] o1 IH]; cbn; try done.
  case_bool_decide; cbn; by rewrite IH.
Qed.

Lemma invokers_received key (r : result jsval) ws :
  invokers key (map (λ c, Received c r) ws) = [].
Proof. by induction ws. Qed.

Lemma settlements_received key (r : result jsval) ws :
  settlements key (map (λ c, Received c r) ws) = 0%nat.
Proof. by induction ws. Qed.

Lemma memo_probe_start now key m :
  memo_probe now key m = Start →
  pending m !! key = None ∧ ∀ e, values m !! key = Some e → expiresAt e < now.
Proof.
  unfold memo_probe. intros H. split.
  - destruct (pending m !! key); [|done].
    destruct (values m !! key) as [e|]; [destruct (Z.leb now (expiresAt e))|];
      done.
  - intros e He. rewrite He in H.
    destruct (Z.leb_spec now (expiresAt e)); [done | lia].
Qed.

Lemma memo_probe_stale now key m :
  (∀ e, values m !! key = Some e → expiresAt e < now) →
  memo_probe now key m =
  match pending m !! key with
  | Some ws => Attach ws
  | None => Start
  end.
Proof.
  intros H. unfold memo_probe.
  destruct (values m !! key) as [e|] eqn:He; [|done].
  specialize (H e eq_refl). destruct (Z.leb_spec now (expiresAt e)); [lia | done].
Qed.

(** One event changes the number of fetches in flight for a key by what
    it shows: an invocation adds one, a settlement removes one. *)
Lemma memo_step_in_flight key s ev :
  let '(s1, o) := memo_step s ev in
  (List.length (invokers key o) + in_flight s key =
   settlements key o + in_flight s1 key)%nat.
Proof.
  destruct ev as [c k|k r|dt]; cbn -[invokers settlements]; unfold in_flight.
  - unfold memo_use, memo_probe.
    destruct (pending (store s) !! k) as [ws|] eqn:Hp;
      (destruct (values (store s) !! k) as [e|];
       [destruct (Z.leb (clock s) (expiresAt e))|]); cbn; try lia;
      destruct (decide (k = key)) as [->|Hne];
      rewrite ?bool_decide_eq_true_2, ?bool_decide_eq_false_2 by done;
      rewrite ?lookup_insert_eq, ?lookup_insert_ne, ?Hp by done; cbn; lia.
  - destruct (pending (store s) !! k) as [ws|] eqn:Hp; cbn; [|lia].
    unfold memo_settle. rewrite Hp. cbn.
    rewrite invokers_received, settlements_received.
    destruct (decide (k = key)) as [->|Hne];
      rewrite ?bool_decide_eq_true_2, ?bool_decide_eq_false_2 by done;
      rewrite ?lookup_delete_eq, ?lookup_delete_ne, ?Hp by done; cbn; lia.
  - done.
Qed.

Lemma memo_run_in_flight key evs s :
  let '(s1, o) := memo_run s evs in
  (List.length (invokers key o) + in_flight s key =
   settlements key o + in_flight s1 key)%nat.
Proof.
  revert s. induction evs as [|ev evs IH]; intros s; cbn; [lia|].
  pose proof (memo_step_in_flight key s ev) as Hs.
  destruct (memo_step s ev) as [s1 o1].
  specialize (IH s1). destruct (memo_run s1 evs) as [s2 o2].
  rewrite invokers_app, settlements_app, length_app. lia.
Qed.

Lemma in_flight_le s key : (in_flight s key ≤ 1)%nat.
Proof. unfold in_flight. destruct (pending (store s) !! key); lia. Qed.

(** While a fetch stays outstanding and no fresh value is stored, a call
    joins the resolution in flight, or starts it if there is none. *)
Lemma memo_step_joins key s ev :
  no_fresh s key → settles key ev = false →
  let '(s1, o) := memo_step s ev in
  no_fresh s1 key ∧
  pending (store s1) !! key
  = joined (pending (store s) !! key) (callers_of key [ev]) ∧
  invokers key o = first_of (pending (store s) !! key) (callers_of key [ev]) ∧
  values (store s1) !! key = values (store s) !! key.
Proof.
  intros Hstale Hev. destruct ev as [c k|k r|dt]; cbn in *.
  - destruct (decide (k = key)) as [->|Hne].
    + rewrite bool_decide_eq_true_2 by done.
      unfold memo_use. rewrite memo_probe_stale by apply Hstale.
      destruct (pending (store s) !! key) as [ws|] eqn:Hp; cbn;
        rewrite ?bool_decide_eq_true_2 by done;
        rewrite lookup_insert_eq; (split; [exact Hstale | done]).
    + rewrite bool_decide_eq_false_2 by done.
      unfold memo_use. destruct (memo_probe (clock s) k (store s)); cbn;
        repeat case_bool_decide; try done;
        rewrite ?lookup_insert_ne by done;
        (split; [exact Hstale | by destruct (pending (store s) !! key)]).
  - apply bool_decide_eq_false_1 in Hev.
    destruct (pending (store s) !! k) as [ws|] eqn:Hp; cbn.
    + unfold memo_settle. rewrite Hp. cbn.
      rewrite invokers_received, lookup_delete_ne by done.
      assert (match r with
              | Ok v => <[k:={| value := v; expiresAt := clock s + TTL |}]>
                          (values (store s))
              | Err _ => values (store s)
              end !! key = values (store s) !! key) as Hv.
      { destruct r; [by rewrite lookup_insert_ne | done]. }
      split; [|by destruct (pending (store s) !! key)].
      intros e. cbn. rewrite Hv. apply Hstale.
    + by destruct (pending (store s) !! key).
  - split; [|by destruct (pending (store s) !! key)].
    intros e He. cbn in *. specialize (Hstale e He). lia.
Qed.

Lemma callers_of_cons key ev evs :
  callers_of key (ev :: evs) = callers_of key [ev] ++ callers_of key evs.
Proof. destruct ev; cbn; try done. by case_bool_decide. Qed.

Lemma memo_run_joins key evs s :
  no_fresh s key → outstanding key evs = true →
  let '(s1, o) := memo_run s evs in
  no_fresh s1 key ∧
  pending (store s1) !! key
  = joined (pending (store s) !! key) (callers_of key evs) ∧
  invokers key o = first_of (pending (store s) !! key) (callers_of key evs) ∧
  values (store s1) !! key = values (store s) !! key.
Proof.
  revert s. induction evs as [|ev evs IH]; intros s Hstale Hevs.
  - cbn. by destruct (pending (store s) !! key).
  - cbn in Hevs. apply andb_true_iff in Hevs as [Hev Hevs].
    apply negb_true_iff in Hev.
    rewrite callers_of_cons. cbn [memo_run].
    pose proof (memo_step_joins key s ev Hstale Hev) as Hs.
    destruct (memo_step s ev) as [s1 o1]. destruct Hs as (Hs1 & Hp1 & Hi1 & Hv1).
    specialize (IH s1 Hs1 Hevs).
    destruct (memo_run s1 evs) as [s2 o2]. destruct IH as (Hs2 & Hp2 & Hi2 & Hv2).
    split; [done|]. rewrite invokers_app, Hi1, Hi2, Hp2, Hp1, Hv2, Hv1.
    destruct (pending (store s) !! key) as [ws|];
      destruct (callers_of key [ev]) as [|c cs];
      destruct (callers_of key evs) as [|c' cs']; cbn;
      rewrite ?app_nil_r, <- ?app_assoc; done.
Qed.

(** The resolve operations of [artist.topTracks] and [search.query] are
    calls of [memo.use] under the key that [memo.key] builds from the
    request: equal requests meet under one key. *)
Lemma resolves_through_memo sdk id q market limit :
  (∃ k, artist_topTracks sdk id
        = MemoUse (memo_key [JStr "artist"; JStr "tracks"; id])
            (call_on sdk (artists_topTracks id)) k) ∧
  (∃ fetcher k, search_query sdk q market limit
                = MemoUse (memo_key [JStr "search"; q]) fetcher k).
Proof. split; [by eexists | by eexists _, _]. Qed.

(** C1: when no fresh value is stored for a key and nothing is in flight
    for it, any number of requesters that call [memo.use] with that key
    before the fetch settles, interleaved in any way with the traffic of
    other keys and with time passing, cause exactly one invocation of a
    fetcher (the first requester's); when the fetch settles, with a value
    or with a failure, each of them receives that same outcome; and in no
    run of the cache does a key have more than one fetch in flight. *)
Theorem memo_use_single_flight s key evs r :
  memo_probe (clock s) key (store s) = Start →
  outstanding key evs = true →
  callers_of key evs ≠ [] →
  let '(s1, o1) := memo_run s evs in
  let '(s2, o2) := memo_step s1 (Settle key r) in
  (∃ c, head (callers_of key evs) = Some c ∧ invokers key o1 = [c]) ∧
  o2 = Settled key :: map (λ c, Received c r) (callers_of key evs) ∧
  ∀ evs',
    (List.length (invokers key (snd (memo_run s evs')))
     ≤ settlements key (snd (memo_run s evs')) + 1)%nat.
Proof.
  intros Hstart Hout Hcs.
  apply memo_probe_start in Hstart as [Hp Hv].
  pose proof (memo_run_joins key evs s Hv Hout) as Hrun.
  destruct (memo_run s evs) as [s1 o1]. destruct Hrun as (_ & Hp1 & Hi1 & _).
  rewrite Hp in Hp1, Hi1.
  destruct (callers_of key evs) as [|c cs] eqn:Hcallers; [done|].
  cbn [memo_step]. cbn in Hp1. rewrite Hp1. unfold memo_settle. rewrite Hp1.
  split; [by exists c|]. split; [done|].
  intros evs'. pose proof (memo_run_in_flight key evs' s) as Hf.
  destruct (memo_run s evs') as [s' o']. cbn [snd].
  pose proof (in_flight_le s' key). unfold in_flight in Hf at 1.
  rewrite Hp in Hf. lia.
Qed.

(** ** Failures and the cache *)

(** A value that is stored and has not expired is served without running
    the fetcher. *)
Lemma memo_await_fresh up key fetcher w v expiry :
  values (cached w) !! key = Some {| value := v; expiresAt := expiry |} →
  time w ≤ expiry →
  exec up (memo_await key fetcher) w = (Ok v, w, [MemoHit key v]).
Proof.
  intros Hv Ht. rewrite memo_await_exec. unfold memo_use, memo_probe.
  rewrite Hv. cbn. destruct (Z.leb_spec (time w) expiry); [done | lia].
Qed.

(** [getContext] turns a failed upstream call into the empty object, and
    the cache stores it like any value. *)
Lemma context_get_stores up sdk key w :
  memo_probe (time w) key (cached w) = Start →
  ∃ v w1 t,
    exec up (context_get sdk (JStr key)) w
    = (Ok v, w1, MemoFetch key :: t ++ [MemoSettled key (Ok v)]) ∧
    ((∃ s c e, t = [Called s c (Err e)]) → v = JObj []) ∧
    values (cached w1) !! key
    = Some {| value := v; expiresAt := time w + TTL |} ∧
    ∀ up' sdk' w2,
      cached w2 = cached w1 → time w2 ≤ time w + TTL →
      exec up' (context_get sdk' (JStr key)) w2 = (Ok v, w2, [MemoHit key v]).
Proof.
  intros Hstart. cbn [context_get]. rewrite memo_await_exec.
  unfold memo_use. rewrite Hstart.
  match goal with
  | |- context [exec up (getContext sdk (JStr key)) ?w0] =>
      destruct (getContext_exec up sdk (JStr key) w0)
        as (r & w1 & t & He & Hc & Ht & _ & _ & Hr)
  end.
  destruct (Hr key eq_refl) as (v & -> & Hv). rewrite He.
  assert (values (fst (memo_settle (time w1) key (Ok v) (cached w1))) !! key
          = Some {| value := v; expiresAt := time w + TTL |}) as Hstored.
  { unfold memo_settle. rewrite Hc. cbn. rewrite lookup_insert_eq. cbn.
    by rewrite lookup_insert_eq, Ht. }
  eexists _, _, _. split; [done|]. split; [done|]. split; [done|].
  intros up' sdk' w2 Hsame Hfresh. cbn [context_get].
  apply (memo_await_fresh _ _ _ _ _ (time w + TTL)); [|done].
  by rewrite Hsame.
Qed.

(** C3, as the code has it: a fetch that fails is handed to every
    requester and stores nothing, so the next [memo.use] for the key
    invokes the fetcher again; but the fetcher of [context.get] does not
    fail for a string uri: [getContext] answers a failed upstream call
    with [{}], the cache stores that value until it expires, and until
    then [context.get] serves it without calling upstream. *)
Theorem failures_not_cached_except_context s key evs e up sdk w :
  memo_probe (clock s) key (store s) = Start →
  outstanding key evs = true →
  callers_of key evs ≠ [] →
  memo_probe (time w) key (cached w) = Start →
  (let '(s1, o1) := memo_run s evs in
   let '(s2, o2) := memo_step s1 (Settle key (Err e)) in
   o2 = Settled key :: map (λ c, Received c (Err e)) (callers_of key evs) ∧
   values (store s2) = values (store s1) ∧
   values (store s2) !! key = values (store s) !! key ∧
   ∀ c, snd (memo_step s2 (Use c key)) = [Invoked key c]) ∧
  ∃ v w1 t,
    exec up (context_get sdk (JStr key)) w
    = (Ok v, w1, MemoFetch key :: t ++ [MemoSettled key (Ok v)]) ∧
    ((∃ s c e, t = [Called s c (Err e)]) → v = JObj []) ∧
    values (cached w1) !! key
    = Some {| value := v; expiresAt := time w + TTL |} ∧
    ∀ up' sdk' w2,
      cached w2 = cached w1 → time w2 ≤ time w + TTL →
      exec up' (context_get sdk' (JStr key)) w2 = (Ok v, w2, [MemoHit key v]).
Proof.
  intros Hstart Hout Hcs Hw. split; [|by apply context_get_stores].
  apply memo_probe_start in Hstart as [Hp Hv].
  pose proof (memo_run_joins key evs s Hv Hout) as Hrun.
  destruct (memo_run s evs) as [s1 o1]. destruct Hrun as (Hs1 & Hp1 & _ & Hv1).
  rewrite Hp in Hp1.
  destruct (callers_of key evs) as [|c cs] eqn:Hcallers; [done|].
  cbn [memo_step]. cbn in Hp1. rewrite Hp1. unfold memo_settle. rewrite Hp1.
  cbn [store values]. repeat split; try done.
  intros c'. cbn [memo_step]. unfold memo_use.
  rewrite memo_probe_stale by exact Hs1. cbn [store pending clock].
  by rewrite lookup_delete_eq.
Qed.

(** * More of the code *)

(** ** Splitting texts *)

Lemma split_go_spec sep acc s :
  split_go sep acc s
  = String.rev_app acc (before sep s)
    :: match after_first sep s with
       | Some rest => split sep rest
       | None => []
       end.
Proof.
  revert acc. induction s as [|c s IH]; intros acc; cbn; [done|].
  destruct (Ascii.eqb c sep); [done|]. by rewrite IH.
Qed.

(** [split] cuts at the first separator and goes on with what follows. *)
Lemma split_spec sep s :
  split sep s
  = before sep s :: match after_first sep s with
                    | Some rest => split sep rest
                    | None => []
                    end.
Proof. unfold split at 1. by rewrite split_go_spec. Qed.

Lemma string_app_nil (b : string) : ("" ++ b)%string = b.
Proof. reflexivity. Qed.

Lemma string_app_cons c (a b : string) :
  (String c a ++ b)%string = String c (a ++ b).
Proof. reflexivity. Qed.

Lemma before_free sep a rest :
  free_of sep a = true →
  before sep (a ++ String sep "" ++ rest) = a ∧
  after_first sep (a ++ String sep "" ++ rest) = Some rest.
Proof.
  change (String sep "" ++ rest)%string with (String sep rest).
  unfold free_of. induction a as [|c a IH]; cbn; intros H.
  - rewrite string_app_nil. cbn. by rewrite Ascii.eqb_refl.
  - apply andb_true_iff in H as [Hc Ha]. apply negb_true_iff in Hc.
    rewrite string_app_cons. cbn. rewrite Hc. destruct (IH Ha) as [-> ->]. done.
Qed.

Lemma before_free_end sep a :
  free_of sep a = true → before sep a = a ∧ after_first sep a = None.
Proof.
  unfold free_of. induction a as [|c a IH]; cbn; intros H; [done|].
  apply andb_true_iff in H as [Hc Ha]. apply negb_true_iff in Hc.
  rewrite Hc. destruct (IH Ha) as [-> ->]. done.
Qed.

Lemma deconstructUri_three a type id :
  free_of ":" a = true → free_of ":" type = true → free_of ":" id = true →
  deconstructUri (JStr (a ++ ":" ++ type ++ ":" ++ id))
  = Ok (JStr type, JStr id).
Proof.
  intros Ha Ht Hi. unfold deconstructUri, js_split. cbn [mbind result_bind].
  rewrite split_spec.
  destruct (before_free ":" a (type ++ ":" ++ id) Ha) as [-> ->].
  rewrite split_spec. destruct (before_free ":" type id Ht) as [-> ->].
  rewrite split_spec. by destruct (before_free_end ":" id Hi) as [-> ->].
Qed.

(** X1: [deconstructUri] reads the kind and the id of a uri as its second
    and third colon-separated parts, whatever follows a further colon; a
    part that is missing is [undefined], and a uri that is not a string is
    a [TypeError]. *)
Theorem deconstructUri_parts a type id more :
  free_of ":" a = true → free_of ":" type = true → free_of ":" id = true →
  deconstructUri (JStr (a ++ ":" ++ type ++ ":" ++ id))
  = Ok (JStr type, JStr id) ∧
  deconstructUri (JStr (a ++ ":" ++ type ++ ":" ++ id ++ ":" ++ more))
  = Ok (JStr type, JStr id) ∧
  deconstructUri (JStr (a ++ ":" ++ type)) = Ok (JStr type, JUndefined) ∧
  deconstructUri (JStr a) = Ok (JUndefined, JUndefined) ∧
  ∀ v, (∀ s, v ≠ JStr s) → deconstructUri v = Err TypeError.
Proof.
  intros Ha Ht Hi. split; [by apply deconstructUri_three|].
  unfold deconstructUri, js_split. cbn [mbind result_bind].
  repeat split.
  - rewrite split_spec.
    destruct (before_free ":" a (type ++ ":" ++ id ++ ":" ++ more) Ha) as [-> ->].
    rewrite split_spec.
    destruct (before_free ":" type (id ++ ":" ++ more) Ht) as [-> ->].
    rewrite split_spec. by destruct (before_free ":" id more Hi) as [-> ->].
  - rewrite split_spec. destruct (before_free ":" a type Ha) as [-> ->].
    rewrite split_spec. by destruct (before_free_end ":" type Ht) as [-> ->].
  - rewrite split_spec. by destruct (before_free_end ":" a Ha) as [-> ->].
  - intros v Hv. destruct v; try done. by destruct (Hv s).
Qed.


(** ** [getContext] by kind *)

Lemma obj_get_set fields p v : obj_get (obj_set fields p v) p = v.
Proof.
  induction fields as [|[q w] fields IH]; cbn.
  - by rewrite String.eqb_refl.
  - destruct (String.eqb q p) eqn:Hq; cbn; by rewrite Hq.
Qed.

(** X2: [getContext] on a uri [a:kind:id] calls the provider once, with
    the id of the uri, for the kinds playlist, artist, album and show, and
    answers with the trimmed context tagged with its kind; for any other
    kind, without a session object, and whenever the call or the trimming
    fails, it answers [{}], and it never rejects. *)
Theorem getContext_by_kind up sdk a kind id w :
  free_of ":" a = true → free_of ":" kind = true → free_of ":" id = true →
  exec up (getContext sdk (JStr (a ++ ":" ++ kind ++ ":" ++ id))) w =
  match context_lookup kind (JStr id), sdk with
  | Some (c, trim), Some s =>
      let r := up (answered w) s c in
      (Ok (match r ≫= trim with
           | Ok t => JObj (obj_set (spread t) "type" (JStr kind))
           | Err _ => JObj []
           end),
       with_answer w, [Called s c r])
  | _, _ => (Ok (JObj []), w, [])
  end ∧
  ∀ t, obj_get (obj_set (spread t) "type" (JStr kind)) "type" = JStr kind.
Proof.
  intros Ha Hk Hi. split; [|intros t; apply obj_get_set].
  unfold getContext. rewrite exec_bind, exec_lift.
  rewrite (deconstructUri_three a kind id Ha Hk Hi), after_nil.
  cbn [fst snd strict_eq]. unfold context_lookup.
  destruct (String.eqb kind "playlist") eqn:H1.
  { apply String.eqb_eq in H1 as ->. rewrite guarded_fetch_exec. by destruct sdk. }
  destruct (String.eqb kind "artist") eqn:H2.
  { apply String.eqb_eq in H2 as ->. rewrite guarded_fetch_exec. by destruct sdk. }
  destruct (String.eqb kind "album") eqn:H3.
  { apply String.eqb_eq in H3 as ->. rewrite guarded_fetch_exec. by destruct sdk. }
  destruct (String.eqb kind "show") eqn:H4.
  { apply String.eqb_eq in H4 as ->. rewrite guarded_fetch_exec. by destruct sdk. }
  done.
Qed.

(** ** [SpotifyRegExp] *)

Lemma take_id_spec n s id rest :
  take_id n s = Some (id, rest) →
  String.length id = n ∧
  forallb is_id_char (list_ascii_of_string id) = true ∧
  s = (id ++ rest)%string.
Proof.
  revert s id rest. induction n as [|n IH]; intros s id rest; cbn.
  - by intros [= <- <-].
  - destruct s as [|c s]; [done|].
    destruct (is_id_char c) eqn:Hc; [|done].
    destruct (take_id n s) as [[id' rest']|] eqn:Ht; [|done].
    intros [= <- <-]. destruct (IH _ _ _ Ht) as (Hl & Hf & ->).
    cbn. by rewrite Hl, Hc, Hf.
Qed.

Lemma take_id_app id rest :
  forallb is_id_char (list_ascii_of_string id) = true →
  take_id (String.length id) (id ++ rest) = Some (id, rest).
Proof.
  induction id as [|c id IH]; cbn; intros H; [done|].
  apply andb_true_iff in H as [Hc Hid].
  rewrite string_app_cons, Hc, (IH Hid). done.
Qed.

Lemma take_id_22 id rest :
  is_id id = true → take_id 22 (id ++ rest) = Some (id, rest).
Proof.
  unfold is_id. intros H. apply andb_true_iff in H as [Hl Hf].
  apply Nat.eqb_eq in Hl. rewrite <- Hl. by apply take_id_app.
Qed.

Lemma lit_inv l k s r :
  lit l k s = Some r → ∃ rest, eat l s = Some rest ∧ k rest = Some r.
Proof. unfold lit. destruct (eat l s) as [rest|]; [by exists rest | done]. Qed.

Lemma or_else_inv a b s r :
  or_else a b s = Some r → a s = Some r ∨ b s = Some r.
Proof. unfold or_else. destruct (a s); [by left | by right]. Qed.

Lemma kind_inv k s r :
  kind k s = Some r → ∃ t rest, In t kinds ∧ k t rest = Some r.
Proof.
  unfold kind, kinds. intros H.
  apply or_else_inv in H as [H|H]; [|apply or_else_inv in H as [H|H]];
    apply lit_inv in H as (rest & _ & H); eexists _, rest;
    (split; [|exact H]); cbn; tauto.
Qed.

Lemma id22_inv k s r :
  id22 k s = Some r →
  ∃ id rest, is_id id = true ∧ k id rest = Some r.
Proof.
  unfold id22. destruct (take_id 22 s) as [[id rest]|] eqn:Ht; [|done].
  intros H. exists id, rest. split; [|done].
  destruct (take_id_spec _ _ _ _ Ht) as (Hl & Hf & _).
  unfold is_id. by rewrite Hl, Hf.
Qed.

Lemma SpotifyRegExp_at_captured s r : SpotifyRegExp_at s = Some r → captured r.
Proof.
  unfold SpotifyRegExp_at. intros H.
  apply lit_inv in H as (s1 & _ & H).
  assert (∀ s', lit "://"
            (or_else
               (lit "embed."
                  (lit "spotify.com/"
                     (or_else
                        (kind (λ t, lit "/"
                           (id22 (λ id _, Some (JStr t, JUndefined, JStr id)))))
                        (lit "?uri=spotify:"
                           (kind (λ t, lit ":"
                              (id22 (λ id _, Some (JUndefined, JStr t, JStr id)))))))))
               (lit "open."
                  (lit "spotify.com/"
                     (or_else
                        (kind (λ t, lit "/"
                           (id22 (λ id _, Some (JStr t, JUndefined, JStr id)))))
                        (lit "?uri=spotify:"
                           (kind (λ t, lit ":"
                              (id22 (λ id _, Some (JUndefined, JStr t, JStr id))))))))))
            s' = Some r → captured r) as Htail.
  { intros s' H'. apply lit_inv in H' as (s2 & _ & H').
    apply or_else_inv in H' as [H'|H'];
      apply lit_inv in H' as (s3 & _ & H');
      apply lit_inv in H' as (s4 & _ & H');
      apply or_else_inv in H' as [H'|H'].
    all: try (apply lit_inv in H' as (s5 & _ & H')).
    all: apply kind_inv in H' as (t & s6 & Ht & H');
      apply lit_inv in H' as (s7 & _ & H');
      apply id22_inv in H' as (id & s8 & Hid & [= <-]);
      exists t, id; auto. }
  apply or_else_inv in H as [H|H]; [apply lit_inv in H as (s2 & _ & H)|];
    by apply Htail in H.
Qed.

Lemma SpotifyRegExp_search_captured s r :
  SpotifyRegExp_search s = Some r → captured r.
Proof.
  induction s as [|c s IH]; cbn [SpotifyRegExp_search].
  - destruct (SpotifyRegExp_at "") eqn:H; [|done].
    intros [= <-]. by apply SpotifyRegExp_at_captured in H.
  - destruct (SpotifyRegExp_at (String c s)) eqn:H; [|exact IH].
    intros [= <-]. by apply SpotifyRegExp_at_captured in H.
Qed.

(** X3: whatever the text, a match of [SpotifyRegExp] captures one of the
    kinds track, album and artist, in exactly one of its two kind groups,
    and an id of 22 word characters or dashes; so [SpotifyUrl] answers
    with that kind and id. *)
Theorem SpotifyRegExp_captures url typeOne typeTwo id :
  SpotifyRegExp url = Some (typeOne, typeTwo, id) →
  ∃ k i,
    In k kinds ∧ is_id i = true ∧ id = JStr i ∧
    (typeOne = JStr k ∧ typeTwo = JUndefined ∨
     typeOne = JUndefined ∧ typeTwo = JStr k) ∧
    SpotifyUrl url = Ok (JStr k, JStr i).
Proof.
  unfold SpotifyUrl, SpotifyRegExp. intros H. rewrite H.
  apply SpotifyRegExp_search_captured in H as (k & i & Hk & Hi & [[= -> -> ->]|[= -> -> ->]]);
    exists k, i; repeat split; auto;
    unfold kinds in Hk; cbn in Hk;
    destruct Hk as [<-|[<-|[<-|[]]]]; reflexivity.
Qed.

Lemma SpotifyRegExp_search_at s r :
  SpotifyRegExp_at s = Some r → SpotifyRegExp_search s = Some r.
Proof. intros H. destruct s; cbn [SpotifyRegExp_search]; by rewrite H. Qed.

Lemma SpotifyRegExp_address scheme host k id rest :
  In scheme ["http"; "https"] → In host ["embed."; "open."] →
  In k kinds → is_id id = true →
  SpotifyRegExp
    (JStr (scheme ++ "://" ++ host ++ "spotify.com/" ++ k ++ "/" ++ id ++ rest))
  = Some (JStr k, JUndefined, JStr id) ∧
  SpotifyRegExp
    (JStr (scheme ++ "://" ++ host ++ "spotify.com/?uri=spotify:" ++ k ++ ":"
           ++ id ++ rest))
  = Some (JUndefined, JStr k, JStr id).
Proof.
  intros Hs Hh Hk Hid.
  unfold SpotifyRegExp, kinds in *. cbn [js_text].
  cbn in Hs, Hh, Hk.
  destruct Hs as [<-|[<-|[]]]; destruct Hh as [<-|[<-|[]]];
    destruct Hk as [<-|[<-|[<-|[]]]];
    (split; apply SpotifyRegExp_search_at;
     repeat rewrite string_app_cons; repeat rewrite string_app_nil;
     unfold SpotifyRegExp_at, kind, id22, or_else, lit;
     cbn -[take_id]; by rewrite (take_id_22 id rest Hid)).
Qed.

(** X4: a web address of the form [http(s)://open.|embed.spotify.com/]
    followed by [kind/id] or by [?uri=spotify:kind:id], with a kind among
    track, album and artist and an id of 22 word characters or dashes, is
    recognised whatever follows the id, and [SpotifyUrl] gives back that
    kind and that id. *)
Theorem SpotifyUrl_reads_address scheme host k id rest :
  In scheme ["http"; "https"] → In host ["embed."; "open."] →
  In k kinds → is_id id = true →
  let address :=
    JStr (scheme ++ "://" ++ host ++ "spotify.com/" ++ k ++ "/" ++ id ++ rest) in
  let embedded :=
    JStr (scheme ++ "://" ++ host ++ "spotify.com/?uri=spotify:" ++ k ++ ":"
          ++ id ++ rest) in
  SpotifyRegExp address = Some (JStr k, JUndefined, JStr id) ∧
  SpotifyRegExp embedded = Some (JUndefined, JStr k, JStr id) ∧
  isSpotifyUrl address = true ∧ isSpotifyUrl embedded = true ∧
  SpotifyUrl address = Ok (JStr k, JStr id) ∧
  SpotifyUrl embedded = Ok (JStr k, JStr id).
Proof.
  intros Hs Hh Hk Hid address embedded.
  destruct (SpotifyRegExp_address scheme host k id rest Hs Hh Hk Hid) as [H1 H2].
  fold address in H1. fold embedded in H2.
  unfold isSpotifyUrl, SpotifyUrl. rewrite H1, H2.
  repeat split; try done.
  all: unfold kinds in Hk; cbn in Hk; destruct Hk as [<-|[<-|[<-|[]]]]; done.
Qed.

(** ** View models *)

Ltac bind_in H :=
  repeat match type of H with
         | (?x ≫= _) = Ok _ =>
             let E := fresh "E" in
             destruct x eqn:E; cbn [mbind result_bind] in H; [|discriminate H]
         end.

Lemma normalisedData_image id name subtitle uri images n img :
  normalisedData id name subtitle uri images = Ok n →
  image_of images = Ok img →
  n = JObj [("id", id); ("title", name); ("subtitle", subtitle); ("uri", uri);
            ("image", img)].
Proof.
  unfold normalisedData, image_of.
  destruct (at_first images) as [full|e1]; cbn [mbind result_bind]; [|done].
  destruct (at_last images) as [low|e2]; cbn [mbind result_bind]; [|done].
  by intros [= <-] [= <-].
Qed.

Lemma get_prop_opt_same v p x :
  get_prop v p = Ok x → get_prop_opt v p = Ok x.
Proof. by destruct v. Qed.

Lemma image_of_array images img :
  image_of images = Ok img → nullish images (JArr []) = images.
Proof. by destruct images. Qed.

Ltac same_props :=
  repeat match goal with
         | H1 : get_prop ?v ?p = Ok ?x, H2 : get_prop_opt ?v ?p = Ok ?y |- _ =>
             rewrite (get_prop_opt_same _ _ _ H1) in H2; injection H2 as <-
         end.

Ltac agree :=
  match goal with
  | Hn : normalisedData _ _ _ _ ?images = Ok ?n,
    Hi : image_of ?images = Ok ?img |- _ =>
      rewrite (normalisedData_image _ _ _ _ _ _ _ Hn Hi); by repeat split
  end.

(** X5: each of the six [trim] functions, when it succeeds, gives a view
    model whose [normalised] part has the same id, title, uri and image as
    the view model itself. *)
Theorem trim_normalised_agrees trim v view :
  In trim trims → trim v = Ok view → normalised_agrees view.
Proof.
  unfold trims. cbn [In].
  intros [<-|[<-|[<-|[<-|[<-|[<-|[]]]]]]] H.
  - unfold trim_track in H. bind_in H. injection H as <-. same_props.
    match goal with
    | Hi : image_of ?images = Ok _, Hn : normalisedData _ _ _ _ _ = Ok _ |- _ =>
        rewrite (image_of_array _ _ Hi) in Hn
    end.
    agree.
  - unfold trim_playlist in H. bind_in H. injection H as <-. agree.
  - unfold trim_artist in H. bind_in H. injection H as <-. agree.
  - unfold trim_album in H. bind_in H. injection H as <-. agree.
  - unfold trim_episode in H. bind_in H. injection H as <-. agree.
  - unfold trim_show in H. bind_in H. injection H as <-. agree.
Qed.

Lemma get_prop_error v p e : get_prop v p = Err e → e = TypeError.
Proof. destruct v; cbn; congruence. Qed.

Lemma get_prop_opt_error v p e : get_prop_opt v p = Err e → e = TypeError.
Proof. destruct v; cbn; congruence. Qed.

Lemma get_index_error v i e : get_index v i = Err e → e = TypeError.
Proof. destruct v; cbn; congruence. Qed.

Lemma image_of_error images e : image_of images = Err e → e = TypeError.
Proof. destruct images as [| | | |[|c s]| |]; cbn; congruence. Qed.

Lemma normalisedData_error id name subtitle uri images e :
  normalisedData id name subtitle uri images = Err e → e = TypeError.
Proof. destruct images as [| | | |[|c s]| |]; cbn; congruence. Qed.

Lemma js_split_error v sep e : js_split v sep = Err e → e = TypeError.
Proof. destruct v; cbn; congruence. Qed.

Lemma map_result_error f items e :
  (∀ x e', f x = Err e' → e' = TypeError) →
  map_result f items = Err e → e = TypeError.
Proof.
  intros Hf. induction items as [|x items IH]; cbn; [done|].
  destruct (f x) eqn:Hx; cbn; [|intros [= <-]; by eapply Hf].
  destruct (map_result f items); cbn; [done|]. intros [= <-]. by apply IH.
Qed.

Lemma js_map_error v f e :
  (∀ x e', f x = Err e' → e' = TypeError) →
  js_map v f = Err e → e = TypeError.
Proof.
  intros Hf. destruct v; cbn; try congruence.
  destruct (map_result f items) eqn:Hm; cbn; [done|].
  intros [= <-]. by eapply map_result_error.
Qed.

Ltac type_error :=
  match goal with
  | E : get_prop _ _ = Err _ |- _ => apply get_prop_error in E
  | E : get_prop_opt _ _ = Err _ |- _ => apply get_prop_opt_error in E
  | E : get_index _ _ = Err _ |- _ => apply get_index_error in E
  | E : image_of _ = Err _ |- _ => apply image_of_error in E
  | E : normalisedData _ _ _ _ _ = Err _ |- _ => apply normalisedData_error in E
  | E : js_split _ _ = Err _ |- _ => apply js_split_error in E
  | E : js_map _ _ = Err _ |- _ =>
      apply js_map_error in E; [|intros ? ?; apply get_prop_error]
  end; congruence.

Ltac bind_goal :=
  repeat match goal with
         | |- (?x ≫= _) = Err TypeError =>
             let E := fresh "E" in
             destruct x eqn:E; cbn [mbind result_bind]; [|type_error]
         end.

(** X6: [trim.track] fails with a [TypeError] on a track whose album is
    missing or [null]: the optional chaining in its [normalised] part does
    not make the album optional. *)
Theorem trim_track_requires_album track :
  (∀ album, get_prop track "album" = Ok album →
            album = JNull ∨ album = JUndefined) →
  trim_track track = Err TypeError.
Proof.
  intros Halbum. unfold trim_track. bind_goal.
  match goal with
  | E : get_prop track "album" = Ok ?a |- _ =>
      destruct (Halbum a eq_refl); subst
  end; discriminate.
Qed.

(** X7: the subtitle of an album's view model is its release date up to
    the first dash (the year), the whole date when it has no dash; an
    album whose release date is not a string makes [trim.album] fail with
    a [TypeError]. *)
Theorem trim_album_year album release :
  get_prop album "release_date" = Ok release →
  (∀ view, trim_album album = Ok view →
     ∃ date, release = JStr date ∧
       obj_get (spread (obj_get (spread view) "normalised")) "subtitle"
       = JStr (before "-" date) ∧
       obj_get (spread view) "release" = JStr date) ∧
  ((∀ date, release ≠ JStr date) → trim_album album = Err TypeError).
Proof.
  intros Hrelease. split.
  - intros view H. unfold trim_album in H. rewrite Hrelease in H.
    bind_in H. injection H as <-.
    destruct release as [| | | |date| |]; try discriminate.
    exists date. injection E1 as <-. rewrite split_spec in *. cbn in *.
    match goal with
    | Hn : normalisedData _ _ _ _ ?images = Ok ?n,
      Hi : image_of ?images = Ok ?img |- _ =>
        rewrite (normalisedData_image _ _ _ _ _ _ _ Hn Hi)
    end.
    done.
  - intros Hnot. unfold trim_album. rewrite Hrelease.
    destruct release; try (bind_goal; discriminate). by destruct (Hnot s).
Qed.

(** ** [queue.get] *)

Lemma queue_filter_empty items :
  Forall queue_item items →
  filter_result
    (λ item, type ← get_prop item "type";
             Ok (negb (strict_eq type (JStr "episode")
                       || strict_eq type (JStr "track"))))
    (filter (λ item, truthy item = true) items)
  = Ok [].
Proof.
  induction 1 as [|item items Hitem _ IH]; [done|].
  destruct (truthy item) eqn:Ht.
  - rewrite filter_cons_True by done. cbn [filter_result].
    destruct (Hitem Ht) as [-> | ->]; cbn; by rewrite IH.
  - rewrite filter_cons_False by (by rewrite Ht). exact IH.
Qed.

(** X8: [queue.get] answers [{noQueue: true}] when the provider has no
    queue, and otherwise keeps only the entries whose type is neither
    track nor episode: for a queue of tracks and episodes it answers
    [{items: []}], after one provider call. *)
Theorem queue_get_keeps_no_track up w s users_queue :
  up (answered w) s player_getUsersQueue = Ok users_queue →
  (truthy users_queue = false →
   exec up (queue_get (Some s)) w
   = (Ok (JObj [("noQueue", JBool true)]), with_answer w,
      [Called s player_getUsersQueue (Ok users_queue)])) ∧
  (∀ playing upcoming,
     truthy users_queue = true →
     get_prop users_queue "currently_playing" = Ok playing →
     get_prop users_queue "queue" = Ok (JArr upcoming) →
     Forall queue_item (playing :: upcoming) →
     exec up (queue_get (Some s)) w
     = (Ok (JObj [("items", JArr [])]), with_answer w,
        [Called s player_getUsersQueue (Ok users_queue)])).
Proof.
  intros Hup. unfold queue_get. rewrite exec_bind, exec_call_on, Hup.
  split.
  - intros ->. done.
  - intros playing upcoming -> Hplaying Hqueue Hitems. cbn [negb after app].
    rewrite exec_bind, exec_lift, Hplaying, after_nil.
    rewrite exec_bind, exec_lift, Hqueue, after_nil.
    rewrite exec_bind, exec_lift. cbn [iterate]. rewrite after_nil.
    rewrite exec_bind, exec_lift, (queue_filter_empty _ Hitems), after_nil.
    by rewrite exec_bind, exec_lift.
Qed.

(** ** [info.get] at the edges *)

(** X9: when the provider reports nothing playing, [info.get] answers
    [{noTrack: true}] after its one call, without going to the cache, and
    a tick with an audience broadcasts that answer. *)
Theorem nothing_playing up w s track :
  session w = Some s → sockets w ≠ [] →
  up (answered w) s snapshot_call = Ok track →
  truthy track = false →
  exec up (info_get (Some s) JUndefined) w
  = (Ok (JObj [("noTrack", JBool true)]), with_answer w,
     [Called s snapshot_call (Ok track)]) ∧
  exec up polling w
  = (Ok tt, with_answer w,
     [Said (console_log "Running centralised polling");
      Called s snapshot_call (Ok track);
      Broadcast "info" (JObj [("noTrack", JBool true)]) (sockets w);
      Said (console_log "Ran centralised polling")]).
Proof.
  intros Hs Hne Hup Htrack.
  assert (exec up (info_get (Some s) JUndefined) w
          = (Ok (JObj [("noTrack", JBool true)]), with_answer w,
             [Called s snapshot_call (Ok track)])) as Hinfo.
  { by rewrite (info_get_snapshot up s w track Hup), Htrack. }
  split; [done|].
  rewrite polling_exec, Hs, audience_positive.
  rewrite bool_decide_eq_false_2 by done. cbn [negb]. by rewrite Hinfo.
Qed.

(** X10: a snapshot that is playing but carries no context (its [context]
    is [null] or missing) makes [info.get] fail with a [TypeError] right
    after its call, before the cache is consulted; the tick then
    broadcasts nothing. *)
Theorem snapshot_without_context up w s track context :
  session w = Some s → sockets w ≠ [] →
  up (answered w) s snapshot_call = Ok track →
  truthy track = true →
  get_prop track "context" = Ok context →
  context = JNull ∨ context = JUndefined →
  exec up (info_get (Some s) JUndefined) w
  = (Err TypeError, with_answer w, [Called s snapshot_call (Ok track)]) ∧
  exec up polling w
  = (Err TypeError, with_answer w,
     [Said (console_log "Running centralised polling");
      Called s snapshot_call (Ok track)]).
Proof.
  intros Hs Hne Hup Htrack Hcontext Hnull.
  assert (exec up (info_get (Some s) JUndefined) w
          = (Err TypeError, with_answer w,
             [Called s snapshot_call (Ok track)])) as Hinfo.
  { rewrite (info_get_snapshot up s w track Hup), Htrack, Hcontext.
    by destruct Hnull as [-> | ->]. }
  split; [done|].
  rewrite polling_exec, Hs, audience_positive.
  rewrite bool_decide_eq_false_2 by done. cbn [negb]. by rewrite Hinfo.
Qed.

(** ** [apiWrapper] *)

(** [try]/[catch] leaves a run that succeeds as it is and hands the error
    of one that fails to the handler. *)
Lemma exec_try_catch {A} up (p : prog A) h w :
  exec up (try_catch p h) w =
  let '(r, w1, t) := exec up p w in
  match r with
  | Ok a => (Ok a, w1, t)
  | Err e => after t (exec up (h e) w1)
  end.
Proof.
  revert h w. induction p using prog_ind; intros h w; cbn.
  - done.
  - by rewrite after_nil.
  - rewrite H. destruct (exec up (k _) _) as [[r w1] t]. cbn.
    destruct r; [done|]. by rewrite after_after.
  - destruct (memo_use _ _ _ _) as [m [v|ws|]].
    + rewrite H. destruct (exec up (k _) _) as [[r w1] t]. cbn.
      destruct r; [done|]. by rewrite after_after.
    + cbn zeta. rewrite H. destruct (exec up (k _) _) as [[r w1] t]. cbn.
      destruct r; [done|]. by rewrite after_after.
    + destruct (exec up p _) as [[r w1] t1].
      rewrite H. destruct (exec up (k _) _) as [[r2 w2] t2]. cbn.
      destruct r2; [done|]. by rewrite after_after.
  - rewrite IHp. destruct (exec up p w) as [[r w1] t]. cbn.
    destruct r; [done|]. by rewrite after_after.
  - apply H.
  - apply H.
Qed.

Lemma apiWrapper_exec up handler w :
  exec up (apiWrapper handler) w =
  let '(r, w1, t) := exec up handler w in
  match r with
  | Ok body => (Ok (Json body), w1, t)
  | Err e => (Ok (NextErr e), w1, t ++ [Said (console_error "API Error" e)])
  end.
Proof.
  unfold apiWrapper. rewrite exec_try_catch, exec_bind.
  destruct (exec up handler w) as [[r w1] t]. destruct r; cbn.
  - by rewrite app_nil_r.
  - done.
Qed.

(** X11: [apiWrapper] lets no failure of a handler escape: a handler that
    answers has its answer sent as it is, and one that fails, with any
    error, has the error written to the console and passed to [next],
    after everything the handler did. *)
Theorem apiWrapper_catches up handler w r w1 t :
  exec up handler w = (r, w1, t) →
  exec up (apiWrapper handler) w =
  match r with
  | Ok body => (Ok (Json body), w1, t)
  | Err e => (Ok (NextErr e), w1, t ++ [Said (console_error "API Error" e)])
  end.
Proof. intros He. by rewrite apiWrapper_exec, He. Qed.

(** ** The command routes *)

Lemma dispatch_command options req route op c notice event :
  In (route, op, c, notice, event) commands →
  path req = [route] →
  dispatch (routes options) req = apiWrapper (command_handler op notice event req).
Proof.
  unfold commands. cbn [In].
  intros [[= <- <- <- <- <-]|[[= <- <- <- <- <-]|[[= <- <- <- <- <-]
         |[[= <- <- <- <- <-]|[]]]]] Hpath;
    unfold routes; cbn [dispatch]; by rewrite Hpath.
Qed.

Lemma command_exec up s w route op c notice event :
  In (route, op, c, notice, event) commands →
  exec up (op (Some s)) w =
  (match up (answered w) s c with
   | Ok _ => Ok (JObj [("success", JBool true)])
   | Err e => Err e
   end, with_answer w, [Called s c (up (answered w) s c)]).
Proof.
  unfold commands. cbn [In].
  intros [[= <- <- <- <- <-]|[[= <- <- <- <- <-]|[[= <- <- <- <- <-]
         |[[= <- <- <- <- <-]|[]]]]];
    unfold player_forward, player_back, player_play, player_pause;
    rewrite exec_bind, exec_call_on;
    by destruct (up (answered w) s _).
Qed.

(** X12: with a session established, a [GET] of one of the four command
    routes makes exactly the provider call of its command; when the call
    resolves the reply is [{success: true}] after the notice to the
    sockets and the event on the bus; when it rejects there is no notice
    and no event, the error is written to the console and reported on the
    bus, and the reply is the general error. *)
Theorem command_route up api_opts req w s route op c notice event :
  session w = Some s → is_get req = true →
  In (route, op, c, notice, event) commands →
  path req = ["api"; route] →
  exec up (serve api_opts req) w =
  let r := up (answered w) s c in
  match r with
  | Ok _ =>
      (Ok (Json (JObj [("success", JBool true)])), with_answer w,
       [Called s c r; Said (comms_message [JStr notice] JUndefined);
        Said (events_system event)])
  | Err e =>
      (Ok general_error, with_answer w,
       [Called s c r; Said (console_error "API Error" e);
        Said (events_error ERROR_GENERAL e)])
  end.
Proof.
  intros Hs Hget Hin Hpath. unfold serve.
  rewrite (serve_with_api _ _ _ [route]) by done. cbn zeta. rewrite Hs.
  rewrite exec_bind. unfold run. cbn [app].
  unfold is_get in *. cbn [method]. rewrite Hget.
  rewrite (dispatch_command _ _ route op c notice event) by done.
  rewrite apiWrapper_exec. unfold command_handler. cbn [sdk].
  rewrite exec_bind, (command_exec up s w route op c notice event Hin).
  destruct (up (answered w) s c) as [v|e]; cbn; done.
Qed.

(** ** The [/add] route *)

Lemma queue_add_exec up w s uri users_queue items :
  up (answered w) s player_getUsersQueue = Ok users_queue →
  get_prop users_queue "queue" = Ok (JArr items) →
  Forall (λ item, item ≠ JNull ∧ item ≠ JUndefined) items →
  exec up (queue_add (Some s) uri) w =
  if existsb (has_uri uri) items then
    (Ok (JObj [("success", JBool false)]), with_answer w,
     [Called s player_getUsersQueue (Ok users_queue)])
  else
    let added := up (S (answered w)) s (player_addItemToPlaybackQueue uri) in
    (match added with
     | Ok _ => Ok (JObj [("success", JBool true)])
     | Err e => Err e
     end,
     with_answer (with_answer w),
     [Called s player_getUsersQueue (Ok users_queue);
      Called s (player_addItemToPlaybackQueue uri) added]).
Proof.
  intros Hup Hqueue Hitems. unfold queue_add.
  rewrite exec_bind, exec_call_on, Hup. cbn [after app].
  rewrite exec_bind, exec_lift, Hqueue, after_nil.
  rewrite exec_bind, exec_lift. cbn [js_some].
  rewrite (some_result_uri uri items Hitems), after_nil.
  destruct (existsb _ items); [done|].
  rewrite exec_bind, exec_call_on. cbn [with_answer answered].
  by destruct (up (S (answered w)) s (player_addItemToPlaybackQueue uri)).
Qed.

Lemma dispatch_add options req :
  path req = ["add"] → dispatch (routes options) req = apiWrapper (add_handler req).
Proof. intros Hpath. unfold routes. cbn [dispatch]. by rewrite Hpath. Qed.

(** X13: with a session established and the user's queue at hand, a
    [GET /api/add] for a uri already in the queue adds nothing, tells the
    sockets "Song already in queue" and replies [{success: false}]; for a
    uri not in the queue it adds it once, tells the sockets which track
    was added (or "a track" when the request names none) and replies
    [{success: true}]; either way it puts [add] on the bus. When adding
    is refused the reply is the general error, with no notice and no
    event. *)
Theorem add_route up api_opts req w s users_queue items :
  session w = Some s → is_get req = true →
  path req = ["api"; "add"] →
  up (answered w) s player_getUsersQueue = Ok users_queue →
  get_prop users_queue "queue" = Ok (JArr items) →
  Forall (λ item, item ≠ JNull ∧ item ≠ JUndefined) items →
  let uri := obj_get (query req) "uri" in
  let asked := Called s player_getUsersQueue (Ok users_queue) in
  exec up (serve api_opts req) w =
  if existsb (has_uri uri) items then
    (Ok (Json (JObj [("success", JBool false)])), with_answer w,
     [asked; Said (comms_error "Song already in queue");
      Said (events_system "add")])
  else
    let added := up (S (answered w)) s (player_addItemToPlaybackQueue uri) in
    match added with
    | Ok _ =>
        (Ok (Json (JObj [("success", JBool true)])),
         with_answer (with_answer w),
         [asked; Called s (player_addItemToPlaybackQueue uri) added;
          Said (comms_message
                  [JStr "Added <em>";
                   nullish (obj_get (query req) "name") (JStr "a track");
                   JStr "</em>"] (JStr "track"));
          Said (events_system "add")])
    | Err e =>
        (Ok general_error, with_answer (with_answer w),
         [asked; Called s (player_addItemToPlaybackQueue uri) added;
          Said (console_error "API Error" e);
          Said (events_error ERROR_GENERAL e)])
    end.
Proof.
  intros Hs Hget Hpath Hup Hqueue Hitems uri asked. unfold serve.
  rewrite (serve_with_api _ _ _ ["add"]) by done. cbn zeta. rewrite Hs.
  rewrite exec_bind. unfold run. cbn [app].
  unfold is_get in *. cbn [method]. rewrite Hget.
  rewrite dispatch_add by done.
  rewrite apiWrapper_exec. unfold add_handler. cbn [sdk query].
  rewrite exec_bind, (queue_add_exec up w s _ users_queue items Hup Hqueue Hitems).
  fold uri. destruct (existsb (has_uri uri) items); [done|].
  cbn zeta. destruct (up (S (answered w)) s (player_addItemToPlaybackQueue uri));
    done.
Qed.

(** ** What the router leaves alone *)



(** ** [album.get] *)

Lemma map_result_Forall2 f items out :
  map_result f items = Ok out → Forall2 (λ x y, f x = Ok y) items out.
Proof.
  revert out. induction items as [|x items IH]; intros out; cbn.
  - intros [= <-]. constructor.
  - destruct (f x) eqn:Hx; cbn; [|done].
    destruct (map_result f items) eqn:Hm; cbn; [|done].
    intros [= <-]. constructor; [done | by apply IH].
Qed.

Lemma trim_track_album track view :
  trim_track track = Ok view →
  ∃ album, get_prop track "album" = Ok album ∧
           get_prop album "name" = Ok (obj_get (spread view) "album").
Proof.
  intros H. unfold trim_track in H. bind_in H. injection H as <-.
  eexists. split; [done|]. cbn. done.
Qed.

Lemma exec_lift_bind {A B} up (r : result A) (f : A → prog B) w :
  exec up (lift r ≫= f) w =
  match r with
  | Ok a => exec up (f a) w
  | Err e => (Err e, w, [])
  end.
Proof. rewrite exec_bind, exec_lift. destruct r; [by rewrite after_nil | done]. Qed.

(** X15: when [album.get] answers, it answers with one trimmed track for
    each item of the album it resolved through the cache, and every one
    of them carries that album's name as its [album]. *)
Theorem album_get_tracks up sdk id w view w1 t :
  exec up (album_get sdk id) w = (Ok view, w1, t) →
  ∃ album items tracks,
    fst (fst (exec up (memo_await (memo_key [JStr "album"; id])
                         (call_on sdk (albums_get id))) w)) = Ok album ∧
    (tracks ← get_prop album "tracks"; get_prop tracks "items") = Ok (JArr items) ∧
    view = JObj [("tracks", JArr tracks)] ∧
    List.length tracks = List.length items ∧
    Forall (λ track, get_prop album "name"
                     = Ok (obj_get (spread track) "album")) tracks.
Proof.
  unfold album_get. rewrite exec_bind.
  destruct (exec up (memo_await _ _) w) as [[r0 w0] t0].
  destruct r0 as [album|e]; [|done]. cbn [fst].
  rewrite exec_lift_bind.
  destruct (get_prop album "tracks") as [tr|e] eqn:Htr; [|done].
  rewrite exec_lift_bind. cbn [mbind result_bind].
  destruct (get_prop tr "items") as [its|e] eqn:Hits; [|done].
  rewrite exec_lift_bind.
  destruct its as [| | | | |items|]; try done. cbn [js_map].
  destruct (map_result _ items) as [with_album|e] eqn:Hwith; [|done].
  cbn [mbind result_bind]. rewrite exec_lift_bind. cbn [js_map].
  destruct (map_result trim_track with_album) as [tracks|e] eqn:Htracks; [|done].
  cbn. intros [= <- <- <-].
  apply map_result_Forall2 in Hwith, Htracks.
  exists album, items, tracks. repeat split; try done.
  - by rewrite Htr.
  - apply Forall2_length in Hwith, Htracks. congruence.
  - clear Htr Hits. revert tracks Htracks.
    induction Hwith as [|item x items with_album Hx _ IH]; intros tracks Htracks.
    + inversion Htracks. constructor.
    + inversion Htracks as [|? y ? tracks' Hy Hrest]; subst.
      constructor; [|by apply IH].
      apply trim_track_album in Hy as (a & Ha & Hname).
      injection Hx as <-. cbn in Ha. rewrite obj_get_set in Ha.
      by injection Ha as <-.
Qed.

(** ** The provider calls of a tick *)

Lemma calls_app t1 t2 : calls (t1 ++ t2) = calls t1 ++ calls t2.
Proof.
  induction t1 as [|ev t1 IH]; [done|].
  destruct ev; cbn; by rewrite ?IH.
Qed.

Lemma getContext_calls up sdk uri w :
  (List.length (calls (snd (exec up (getContext sdk uri) w))) ≤ 1)%nat.
Proof.
  destruct (getContext_exec up sdk uri w) as (r & w1 & t & -> & _ & _ & _ & Hc & _).
  destruct Hc as [->|(s & c & x & -> & _)]; cbn; lia.
Qed.

Lemma context_get_calls up sdk uri w :
  (List.length (calls (snd (exec up (context_get sdk uri) w))) ≤ 1)%nat.
Proof.
  destruct uri as [| |b|n|key|items|fields];
    try (cbn [context_get]; apply getContext_calls).
  cbn [context_get]. rewrite memo_await_exec.
  destruct (memo_use (time w) key 0%nat (cached w)) as [m [v|ws|]];
    [cbn; lia | cbn; lia |].
  pose proof (getContext_calls up sdk (JStr key) (with_cached m w)) as H.
  destruct (exec up (getContext sdk (JStr key)) (with_cached m w)) as [[r w1] t].
  cbn [snd] in *. cbn [calls]. rewrite calls_app. cbn. by rewrite app_nil_r.
Qed.

Lemma info_get_calls up sdk market w :
  (List.length (calls (snd (exec up (info_get sdk market) w))) ≤ 2)%nat.
Proof.
  unfold info_get. rewrite exec_bind.
  destruct sdk as [s|]; [|cbn; lia].
  rewrite exec_call_on.
  destruct (up (answered w) s _) as [track|e]; [|cbn; lia].
  destruct (truthy track); cbn [negb]; [|cbn; lia].
  rewrite exec_lift_bind.
  destruct (_ ≫= _) as [uri|e]; [|cbn; lia].
  rewrite exec_bind.
  pose proof (context_get_calls up (Some s) uri (with_answer w)) as H.
  destruct (exec up (context_get (Some s) uri) (with_answer w)) as [[r w1] t].
  cbn [snd] in H. destruct r as [v|e].
  - rewrite exec_lift. cbn. rewrite app_nil_r. lia.
  - cbn. lia.
Qed.

(** X16: a tick of the poll loop makes at most two provider calls,
    whatever the provider answers and whatever the cache holds; so does a
    request for the snapshot. *)
Theorem polling_call_budget up w sdk market :
  (List.length (calls (snd (exec up polling w))) ≤ 2)%nat ∧
  (List.length (calls (snd (exec up (info_get sdk market) w))) ≤ 2)%nat.
Proof.
  split; [|apply info_get_calls].
  rewrite polling_exec.
  destruct (session w) as [s|]; [|cbn; lia].
  destruct (Z.ltb 0 _); [|cbn; lia].
  pose proof (info_get_calls up (Some s) JUndefined w) as H.
  destruct (exec up (info_get (Some s) JUndefined) w) as [[r w1] t].
  cbn [snd] in H. destruct r as [info|e]; cbn [snd calls]; [|done].
  rewrite calls_app. cbn. by rewrite app_nil_r.
Qed.

End Relay.

(** * The properties on the sample data *)

Lemma memo_use_single_flight_witness :
  let '(s1, o1) := memo_run 2000 sample_cache (sample_events "info:current") in
  let '(_, o2) :=
    memo_step 2000 s1 (Settle "info:current" (Ok (JStr "snapshot"))) in
  (∃ c, head (callers_of "info:current" (sample_events "info:current")) = Some c ∧
        invokers "info:current" o1 = [c]) ∧
  o2 = Settled "info:current"
       :: map (λ c, Received c (Ok (JStr "snapshot"))) [1; 2; 3]%nat ∧
  ∀ evs',
    (List.length (invokers "info:current" (snd (memo_run 2000 sample_cache evs')))
     ≤ settlements "info:current" (snd (memo_run 2000 sample_cache evs')) + 1)%nat.
Proof.
  apply (memo_use_single_flight 2000 sample_cache "info:current"
           (sample_events "info:current") (Ok (JStr "snapshot"))).
  - reflexivity.
  - reflexivity.
  - discriminate.
Defined.

Lemma polling_without_session_witness :
  exec 2000 (sample_up "spotify:playlist:abc") polling signed_out
  = (Ok tt, signed_out, [Said (console_log "Running centralised polling")]).
Proof.
  apply (polling_without_session 2000 (sample_up "spotify:playlist:abc")
           signed_out).
  reflexivity.
Defined.

Lemma polling_audience_gate_witness :
  exec 2000 (sample_up "spotify:playlist:abc") polling empty_room
  = (Ok tt, empty_room, [Said (console_log "Running centralised polling")]) ∧
  let up := sample_up "spotify:playlist:abc" in
  let track := sample_snapshot "spotify:playlist:abc" in
  let running := Said (console_log "Running centralised polling") in
  let fetched := Called 1%nat snapshot_call (Ok track) in
  let ran := Said (console_log "Ran centralised polling") in
  exec 2000 up polling sample_world =
  (let '(context, w1, t) :=
     exec 2000 up (context_get (Some 1%nat) (JStr "spotify:playlist:abc"))
       (with_answer sample_world) in
   match
     context ≫= λ context,
       isPlaying ← get_prop track "is_playing";
       kind ← get_prop track "currently_playing_type";
       item ← get_prop track "item";
       trimmed ← (if strict_eq kind (JStr "episode")
                  then trim_episode item else trim_track item);
       current ← get_prop track "progress_ms";
       duration ← get_prop item "duration_ms";
       Ok (JObj [("isPlaying", isPlaying); ("track", trimmed);
                 ("context", context);
                 ("player",
                  JObj [("current", current); ("duration", duration)])])
   with
   | Ok info =>
       (Ok tt, w1,
        running :: fetched :: t ++ [Broadcast "info" info [7%nat; 8%nat]; ran])
   | Err e => (Err e, w1, running :: fetched :: t)
   end) ∧
  ∀ uri,
    let t := snd (exec 2000 up (context_get (Some 1%nat) uri)
                    (with_answer sample_world)) in
    outputs t = [] ∧ forallb is_context_call (calls t) = true.
Proof.
  split.
  - apply (polling_audience_gate 2000 (sample_up "spotify:playlist:abc")
             empty_room 1%nat); reflexivity.
  - apply (polling_audience_gate 2000 (sample_up "spotify:playlist:abc")
             sample_world 1%nat); [reflexivity | discriminate].
Defined.

(** C4 fails on the code: with a session established and two sockets
    connected, a tick whose fetch rejects (the provider refuses the call,
    or the snapshot is playing outside any context) performs the fetch
    and emits nothing. *)
Lemma polling_audience_counterexample :
  session sample_world = Some 1%nat ∧
  List.length (sockets sample_world) = 2%nat ∧
  exec 2000 flaky_up polling sample_world
  = (Err (Rejected (JStr "503")), with_answer sample_world,
     [Said (console_log "Running centralised polling");
      Called 1%nat snapshot_call (Err (Rejected (JStr "503")))]) ∧
  exec 2000 (answering contextless_snapshot) polling sample_world
  = (Err TypeError, with_answer sample_world,
     [Said (console_log "Running centralised polling");
      Called 1%nat snapshot_call (Ok contextless_snapshot)]).
Proof. vm_compute. repeat split. Qed.

Lemma snapshot_fetched_directly_witness :
  (∃ t,
     snd (exec 2000 (sample_up "spotify:playlist:abc") polling sample_world)
     = Said (console_log "Running centralised polling")
       :: Called 1%nat snapshot_call (Ok (sample_snapshot "spotify:playlist:abc"))
       :: t ∧
     hd_error (direct_calls 0
                 (snd (exec 2000 (sample_up "spotify:playlist:abc") polling
                         sample_world)))
     = Some snapshot_call ∧
     (∀ key, In key (memo_keys t) →
        ∃ track context,
          Ok (sample_snapshot "spotify:playlist:abc") = Ok track ∧
          get_prop track "context" = Ok context ∧
          get_prop context "uri" = Ok (JStr key)) ∧
     (∀ info,
        fst (fst (exec 2000 (sample_up "spotify:playlist:abc")
                    (info_get (Some 1%nat) JUndefined) sample_world)) = Ok info →
        In (Broadcast "info" info [7%nat; 8%nat]) t)) ∧
  ∀ api_opts req,
    path req = ["api"; "info"] → is_get req = true →
    let c :=
      player_getCurrentlyPlayingTrack
        (or_default (opt (merge_opts api_opts) "market") (JStr "GB"))
        (JStr "episode") in
    ∃ r w1 t,
      exec 2000 (sample_up "spotify:playlist:abc")
        (serve sample_key "UNAUTHENTICATED" "GENERAL" no_match no_routes
           api_opts req) sample_world
      = (r, w1, Called 1%nat c (Ok (sample_snapshot "spotify:playlist:abc")) :: t).
Proof.
  apply (snapshot_fetched_directly 2000 sample_key "UNAUTHENTICATED" "GENERAL"
           no_match no_routes (sample_up "spotify:playlist:abc") sample_world
           1%nat); [reflexivity | discriminate].
Defined.

(** C2 fails on the code: two ticks and a [GET /api/info] at one instant
    make three provider calls for the snapshot, each outside the cache,
    the second and third while the cache holds a fresh entry; and the one
    key the cache is used under is the context uri the provider reports,
    which differs from one snapshot to another. *)
Lemma polling_snapshot_counterexample :
  let up := sample_up "spotify:playlist:abc" in
  let '(_, w1, t1) := exec 2000 up polling sample_world in
  let '(_, w2, t2) := exec 2000 up polling w1 in
  let '(_, w3, t3) :=
    exec 2000 up
      (serve sample_key "UNAUTHENTICATED" "GENERAL" no_match no_routes ∅
         (sample_request ["api"; "info"])) w2 in
  time w3 = time sample_world ∧
  direct_calls 0 t1 = [snapshot_call] ∧
  direct_calls 0 t2 = [snapshot_call] ∧
  direct_calls 0 t3 = [snapshot_call] ∧
  memo_keys t1 = ["spotify:playlist:abc"] ∧
  memo_keys t2 = ["spotify:playlist:abc"] ∧
  memo_keys (snd (exec 2000 (sample_up "spotify:album:xyz") polling sample_world))
  = ["spotify:album:xyz"].
Proof. vm_compute. repeat split. Qed.

Lemma failures_not_cached_except_context_witness :
  let uri := "spotify:playlist:abc" in
  (let '(s1, _) := memo_run 2000 sample_cache (sample_events uri) in
   let '(s2, o2) :=
     memo_step 2000 s1 (Settle uri (Err (Rejected (JStr "503")))) in
   o2 = Settled uri
        :: map (λ c, Received c (Err (Rejected (JStr "503")))) [1; 2; 3]%nat ∧
   values (store s2) = values (store s1) ∧
   values (store s2) !! uri = values (store sample_cache) !! uri ∧
   ∀ c, snd (memo_step 2000 s2 (Use c uri)) = [Invoked uri c]) ∧
  ∃ v w1 t,
    exec 2000 flaky_up (context_get (Some 1%nat) (JStr uri)) sample_world
    = (Ok v, w1, MemoFetch uri :: t ++ [MemoSettled uri (Ok v)]) ∧
    ((∃ s c e, t = [Called s c (Err e)]) → v = JObj []) ∧
    values (cached w1) !! uri
    = Some {| value := v; expiresAt := time sample_world + 2000 |} ∧
    ∀ up' sdk' w2,
      cached w2 = cached w1 → time w2 ≤ time sample_world + 2000 →
      exec 2000 up' (context_get sdk' (JStr uri)) w2
      = (Ok v, w2, [MemoHit uri v]).
Proof.
  apply (failures_not_cached_except_context 2000 sample_cache
           "spotify:playlist:abc" (sample_events "spotify:playlist:abc")
           (Rejected (JStr "503")) flaky_up (Some 1%nat) sample_world).
  - reflexivity.
  - reflexivity.
  - discriminate.
  - reflexivity.
Defined.

(** C3 fails on the code: the upstream call of [context.get] fails, the
    caller gets [{}], and a second [context.get] for the same uri just
    before the entry expires gets the cached [{}] without any upstream
    call, although the provider would have answered by then. *)
Lemma context_failure_counterexample :
  let uri := "spotify:playlist:abc" in
  let run1 := exec 2000 flaky_up (context_get (Some 1%nat) (JStr uri)) sample_world in
  let w1 := snd (fst run1) in
  let run2 :=
    exec 2000 flaky_up (context_get (Some 1%nat) (JStr uri)) (elapse 1999 w1) in
  run1.1.1 = Ok (JObj []) ∧
  run1.2 = [MemoFetch uri;
            Called 1%nat (playlists_getPlaylist (JStr "abc"))
              (Err (Rejected (JStr "503")));
            MemoSettled uri (Ok (JObj []))] ∧
  values (cached w1) !! uri = Some {| value := JObj []; expiresAt := 2000 |} ∧
  flaky_up (answered (elapse 1999 w1)) 1%nat (playlists_getPlaylist (JStr "abc"))
  = Ok sample_playlist ∧
  run2.1.1 = Ok (JObj []) ∧
  run2.2 = [MemoHit uri (JObj [])].
Proof. vm_compute. repeat split. Qed.

Lemma sdkProtect_refuses_witness :
  exec 2000 (sample_up "spotify:playlist:abc")
    (serve sample_key "UNAUTHENTICATED" "GENERAL" no_match no_routes ∅
       (sample_request ["api"; "info"])) signed_out
  = (Ok (unauthenticated "UNAUTHENTICATED"), signed_out, []) ∧
  ∀ ApiRoutes,
    exec 2000 (sample_up "spotify:playlist:abc")
      (serve_with "UNAUTHENTICATED" "GENERAL" no_routes ApiRoutes
         (sample_request ["api"; "info"])) signed_out
    = (Ok (unauthenticated "UNAUTHENTICATED"), signed_out, []).
Proof.
  apply (sdkProtect_refuses 2000 sample_key "UNAUTHENTICATED" "GENERAL" no_match
           no_routes (sample_up "spotify:playlist:abc") ∅
           (sample_request ["api"; "info"]) ["info"] signed_out);
    reflexivity.
Defined.

Lemma health_is_authenticated_witness :
  exec 2000 (sample_up "spotify:playlist:abc")
    (serve sample_key "UNAUTHENTICATED" "GENERAL" no_match no_routes ∅
       (sample_request ["api"; "health"])) sample_world
  = (Ok (Json (JObj [("success", JBool true); ("authenticated", JBool true)])),
     sample_world, []) ∧
  fst (fst (exec 2000 (sample_up "spotify:playlist:abc")
              (serve sample_key "UNAUTHENTICATED" "GENERAL" no_match no_routes ∅
                 (sample_request ["api"; "health"])) sample_world))
  ≠ Ok (Json (JObj [("success", JBool true); ("authenticated", JBool false)])).
Proof.
  apply (health_is_authenticated 2000 sample_key "UNAUTHENTICATED" "GENERAL"
           no_match no_routes (sample_up "spotify:playlist:abc") ∅
           (sample_request ["api"; "health"]) sample_world);
    reflexivity.
Defined.

Lemma queue_add_checks_queue_witness :
  exec 2000 (sample_up "spotify:playlist:abc")
    (queue_add (Some 1%nat) (JStr "spotify:track:t2")) sample_world
  = (Ok (JObj [("success", JBool false)]), with_answer sample_world,
     [Called 1%nat player_getUsersQueue (Ok sample_queue)]) ∧
  exec 2000 (sample_up "spotify:playlist:abc")
    (queue_add (Some 1%nat) (JStr "spotify:track:t3")) sample_world
  = (Ok (JObj [("success", JBool true)]),
     with_answer (with_answer sample_world),
     [Called 1%nat player_getUsersQueue (Ok sample_queue);
      Called 1%nat (player_addItemToPlaybackQueue (JStr "spotify:track:t3"))
        (Ok JNull)]).
Proof.
  split.
  - apply (queue_add_checks_queue 2000 (sample_up "spotify:playlist:abc")
             sample_world 1%nat (JStr "spotify:track:t2") sample_queue
             [JObj [("uri", JStr "spotify:track:t2")]]);
      [reflexivity | reflexivity | by repeat constructor].
  - apply (queue_add_checks_queue 2000 (sample_up "spotify:playlist:abc")
             sample_world 1%nat (JStr "spotify:track:t3") sample_queue
             [JObj [("uri", JStr "spotify:track:t2")]]);
      [reflexivity | reflexivity | by repeat constructor].
Defined.

(** C9 fails on the code: the uri is not in the queue,
    [addItemToPlaybackQueue] is called once and rejects, and [queue.add]
    fails with that error instead of answering [{success: true}]; and when
    the provider does not hand over the queue, [queue.add] fails without
    calling [addItemToPlaybackQueue] at all. *)
Lemma queue_add_counterexample :
  exec 2000 refusing_up (queue_add (Some 1%nat) (JStr "spotify:track:t3"))
    sample_world
  = (Err (Rejected (JStr "403")), with_answer (with_answer sample_world),
     [Called 1%nat player_getUsersQueue (Ok sample_queue);
      Called 1%nat (player_addItemToPlaybackQueue (JStr "spotify:track:t3"))
        (Err (Rejected (JStr "403")))]) ∧
  exec 2000 flaky_up (queue_add (Some 1%nat) (JStr "spotify:track:t3"))
    sample_world
  = (Err (Rejected (JStr "503")), with_answer sample_world,
     [Called 1%nat player_getUsersQueue (Err (Rejected (JStr "503")))]).
Proof. split; reflexivity. Qed.

(** C7 fails on the code: an option named [pollIntervalMs] leaves the loop
    at the default delay of 5000; the delay is the option
    [centralisedPollingTimer]. *)
Lemma pollIntervalMs_counterexample :
  interval (run sample_key no_match {["pollIntervalMs" := JNum 1000]})
  = Some (polling, JNum 5000) ∧
  interval (run sample_key no_match {["centralisedPollingTimer" := JNum 1000]})
  = Some (polling, JNum 1000).
Proof. unfold run. cbn [interval]. rewrite !opt_merge. split; reflexivity. Qed.

(** A tick that fails and the tick after it: the first call of the
    provider is rejected, the loop reports the failure, and the next
    wake-up polls and broadcasts as usual. *)
Example asyncInterval_after_failure :
  outputs (snd (asyncInterval 2000 flaky_up polling 5000 [id; id] sample_world))
  = [Said (console_log "Running centralised polling");
     TickFailed (Rejected (JStr "503"));
     Said (console_log "Running centralised polling");
     Broadcast "info"
       (JObj [("isPlaying", JBool true);
              ("track",
               JObj [("id", JStr "t1");
                     ("normalised",
                      JObj [("id", JStr "t1"); ("title", JStr "Song");
                            ("subtitle", JStr "Band");
                            ("uri", JStr "spotify:track:t1");
                            ("image", JObj [("full", JUndefined);
                                            ("low", JUndefined)])]);
                     ("title", JStr "Song"); ("album", JStr "Record");
                     ("artist", JStr "Band"); ("artists", JArr [JStr "Band"]);
                     ("number", JNum 1); ("uri", JStr "spotify:track:t1");
                     ("image", JObj [("full", JUndefined);
                                     ("low", JUndefined)])]);
              ("context",
               JObj [("id", JStr "abc");
                     ("normalised",
                      JObj [("id", JStr "abc"); ("title", JStr "Mix");
                            ("subtitle", JStr "Ann");
                            ("uri", JStr "spotify:playlist:abc");
                            ("image", JObj [("full", JUndefined);
                                            ("low", JUndefined)])]);
                     ("title", JStr "Mix"); ("owner", JStr "Ann");
                     ("total", JNum 1); ("uri", JStr "spotify:playlist:abc");
                     ("image", JObj [("full", JUndefined);
                                     ("low", JUndefined)]);
                     ("type", JStr "playlist")]);
              ("player", JObj [("current", JNum 10); ("duration", JNum 1000)])])
       [7%nat; 8%nat];
     Said (console_log "Ran centralised polling")].
Proof. vm_compute. reflexivity. Qed.

(** * The search box, with the expression of [api.js] *)

(** X17: a Spotify address typed into the search box is not searched
    for: [GET /search] with such an address as [q] is answered by
    [track.get], [artist.topTracks] or [album.get] for the id in the
    address, according to the kind the address names, and the provider's
    search is left alone. *)
Theorem search_reads_address memo_key options req scheme host k id rest :
  In scheme ["http"; "https"] → In host ["embed."; "open."] →
  In k kinds → is_id id = true →
  obj_get (query req) "q"
  = JStr (scheme ++ "://" ++ host ++ "spotify.com/" ++ k ++ "/" ++ id ++ rest) ∨
  obj_get (query req) "q"
  = JStr (scheme ++ "://" ++ host ++ "spotify.com/?uri=spotify:" ++ k ++ ":"
          ++ id ++ rest) →
  search_handler memo_key SpotifyRegExp options req =
  if String.eqb k "track" then track_get memo_key (sdk req) (JStr id)
  else if String.eqb k "artist" then artist_topTracks memo_key (sdk req) (JStr id)
  else album_get memo_key (sdk req) (JStr id).
Proof.
  intros Hs Hh Hk Hid Hq.
  destruct (SpotifyRegExp_address scheme host k id rest Hs Hh Hk Hid) as [H1 H2].
  unfold search_handler.
  destruct Hq as [-> | ->]; rewrite ?H1, ?H2;
    unfold kinds in Hk; cbn in Hk; destruct Hk as [<-|[<-|[<-|[]]]]; reflexivity.
Qed.

(** * The further properties on the sample data *)

Lemma deconstructUri_parts_witness :
  deconstructUri (JStr "spotify:playlist:abc") = Ok (JStr "playlist", JStr "abc") ∧
  deconstructUri (JStr "spotify:playlist:abc:x:y")
  = Ok (JStr "playlist", JStr "abc") ∧
  deconstructUri (JStr "spotify:playlist") = Ok (JStr "playlist", JUndefined) ∧
  deconstructUri (JStr "spotify") = Ok (JUndefined, JUndefined) ∧
  ∀ v, (∀ s, v ≠ JStr s) → deconstructUri v = Err TypeError.
Proof.
  apply (deconstructUri_parts "spotify" "playlist" "abc" "x:y"); reflexivity.
Defined.

Lemma getContext_by_kind_witness :
  exec 2000 (sample_up "spotify:playlist:abc")
    (getContext (Some 1%nat) (JStr "spotify:playlist:abc")) sample_world
  = (Ok (match trim_playlist sample_playlist with
         | Ok t => JObj (obj_set (spread t) "type" (JStr "playlist"))
         | Err _ => JObj []
         end),
     with_answer sample_world,
     [Called 1%nat (playlists_getPlaylist (JStr "abc")) (Ok sample_playlist)]) ∧
  ∀ t, obj_get (obj_set (spread t) "type" (JStr "playlist")) "type"
       = JStr "playlist".
Proof.
  apply (getContext_by_kind 2000 (sample_up "spotify:playlist:abc") (Some 1%nat)
           "spotify" "playlist" "abc" sample_world); reflexivity.
Defined.

Lemma SpotifyRegExp_captures_witness :
  ∃ k i,
    In k kinds ∧ is_id i = true ∧ JStr sample_id = JStr i ∧
    (JStr "album" = JStr k ∧ JUndefined = JUndefined ∨
     JStr "album" = JUndefined ∧ JUndefined = JStr k) ∧
    SpotifyUrl (JStr sample_address) = Ok (JStr k, JStr i).
Proof.
  apply (SpotifyRegExp_captures (JStr sample_address) (JStr "album") JUndefined
           (JStr sample_id)).
  reflexivity.
Defined.

Lemma SpotifyUrl_reads_address_witness :
  let address :=
    JStr ("https" ++ "://" ++ "open." ++ "spotify.com/" ++ "album" ++ "/"
          ++ sample_id ++ "?si=1") in
  let embedded :=
    JStr ("https" ++ "://" ++ "open." ++ "spotify.com/?uri=spotify:" ++ "album"
          ++ ":" ++ sample_id ++ "?si=1") in
  SpotifyRegExp address = Some (JStr "album", JUndefined, JStr sample_id) ∧
  SpotifyRegExp embedded = Some (JUndefined, JStr "album", JStr sample_id) ∧
  isSpotifyUrl address = true ∧ isSpotifyUrl embedded = true ∧
  SpotifyUrl address = Ok (JStr "album", JStr sample_id) ∧
  SpotifyUrl embedded = Ok (JStr "album", JStr sample_id).
Proof.
  apply (SpotifyUrl_reads_address "https" "open." "album" sample_id "?si=1");
    [simpl; auto | simpl; auto | simpl; auto | reflexivity].
Defined.

Lemma trim_normalised_agrees_witness :
  ∃ view, trim_album sample_album = Ok view ∧ normalised_agrees view.
Proof.
  eexists. split; [reflexivity|].
  apply (trim_normalised_agrees trim_album sample_album);
    [simpl; auto | reflexivity].
Defined.

Lemma trim_track_requires_album_witness :
  trim_track (JObj [("id", JStr "t1"); ("name", JStr "Song");
                    ("artists", JArr [JObj [("name", JStr "Band")]]);
                    ("uri", JStr "spotify:track:t1"); ("album", JNull)])
  = Err TypeError.
Proof.
  apply trim_track_requires_album.
  intros album H. injection H as <-. left. reflexivity.
Defined.

Lemma trim_album_year_witness :
  (∀ view, trim_album sample_album = Ok view →
     ∃ date, JStr "1999-05-01" = JStr date ∧
       obj_get (spread (obj_get (spread view) "normalised")) "subtitle"
       = JStr (before "-" date) ∧
       obj_get (spread view) "release" = JStr date) ∧
  ((∀ date, JStr "1999-05-01" ≠ JStr date) →
   trim_album sample_album = Err TypeError).
Proof.
  apply (trim_album_year sample_album (JStr "1999-05-01")). reflexivity.
Defined.

Lemma queue_get_keeps_no_track_witness :
  exec 2000 (answering typed_queue) (queue_get (Some 1%nat)) sample_world
  = (Ok (JObj [("items", JArr [])]), with_answer sample_world,
     [Called 1%nat player_getUsersQueue (Ok typed_queue)]).
Proof.
  apply (proj2 (queue_get_keeps_no_track 2000 (answering typed_queue)
                  sample_world 1%nat typed_queue eq_refl)
           (JObj [("type", JStr "track"); ("id", JStr "t1")])
           [JObj [("type", JStr "episode"); ("id", JStr "e1")];
            JObj [("type", JStr "track"); ("id", JStr "t2")]]);
    try reflexivity.
  repeat constructor; intros _; simpl; auto.
Defined.

Lemma nothing_playing_witness :
  exec 2000 (answering JNull) (info_get (Some 1%nat) JUndefined) sample_world
  = (Ok (JObj [("noTrack", JBool true)]), with_answer sample_world,
     [Called 1%nat snapshot_call (Ok JNull)]) ∧
  exec 2000 (answering JNull) polling sample_world
  = (Ok tt, with_answer sample_world,
     [Said (console_log "Running centralised polling");
      Called 1%nat snapshot_call (Ok JNull);
      Broadcast "info" (JObj [("noTrack", JBool true)]) [7%nat; 8%nat];
      Said (console_log "Ran centralised polling")]).
Proof.
  apply (nothing_playing 2000 (answering JNull) sample_world 1%nat JNull);
    [reflexivity | discriminate | reflexivity | reflexivity].
Defined.

Lemma snapshot_without_context_witness :
  exec 2000 (answering contextless_snapshot) (info_get (Some 1%nat) JUndefined)
    sample_world
  = (Err TypeError, with_answer sample_world,
     [Called 1%nat snapshot_call (Ok contextless_snapshot)]) ∧
  exec 2000 (answering contextless_snapshot) polling sample_world
  = (Err TypeError, with_answer sample_world,
     [Said (console_log "Running centralised polling");
      Called 1%nat snapshot_call (Ok contextless_snapshot)]).
Proof.
  apply (snapshot_without_context 2000 (answering contextless_snapshot)
           sample_world 1%nat contextless_snapshot JNull);
    [reflexivity | discriminate | reflexivity | reflexivity | reflexivity
    | left; reflexivity].
Defined.

Lemma apiWrapper_catches_witness :
  exec 2000 (answering contextless_snapshot)
    (apiWrapper (info_get (Some 1%nat) JUndefined)) sample_world
  = (Ok (NextErr TypeError), with_answer sample_world,
     [Called 1%nat snapshot_call (Ok contextless_snapshot)]
     ++ [Said (console_error "API Error" TypeError)]).
Proof.
  apply (apiWrapper_catches 2000 (answering contextless_snapshot)
           (info_get (Some 1%nat) JUndefined) sample_world (Err TypeError)
           (with_answer sample_world)
           [Called 1%nat snapshot_call (Ok contextless_snapshot)]);
    reflexivity.
Defined.

Lemma command_route_witness :
  exec 2000 refusing_up
    (serve sample_key "UNAUTHENTICATED" "GENERAL" no_match no_routes ∅
       (sample_request ["api"; "pause"])) sample_world
  = (Ok (Json (JObj [("success", JBool true)])), with_answer sample_world,
     [Called 1%nat player_pausePlayback (Ok JNull);
      Said (comms_message [JStr "Pressed pause"] JUndefined);
      Said (events_system "pause")]).
Proof.
  apply (command_route 2000 sample_key "UNAUTHENTICATED" "GENERAL" no_match
           no_routes refusing_up ∅ (sample_request ["api"; "pause"])
           sample_world 1%nat "pause" player_pause player_pausePlayback
           "Pressed pause" "pause");
    [reflexivity | reflexivity | simpl; auto | reflexivity].
Defined.

Lemma add_route_witness :
  exec 2000 refusing_up
    (serve sample_key "UNAUTHENTICATED" "GENERAL" no_match no_routes ∅
       (sample_query "GET" ["api"; "add"] [("uri", JStr "spotify:track:t9")]))
    sample_world
  = (Ok (general_error "GENERAL"), with_answer (with_answer sample_world),
     [Called 1%nat player_getUsersQueue (Ok sample_queue);
      Called 1%nat (player_addItemToPlaybackQueue (JStr "spotify:track:t9"))
        (Err (Rejected (JStr "403")));
      Said (console_error "API Error" (Rejected (JStr "403")));
      Said (events_error "GENERAL" (Rejected (JStr "403")))]).
Proof.
  apply (add_route 2000 sample_key "UNAUTHENTICATED" "GENERAL" no_match
           no_routes refusing_up ∅
           (sample_query "GET" ["api"; "add"] [("uri", JStr "spotify:track:t9")])
           sample_world 1%nat sample_queue
           [JObj [("uri", JStr "spotify:track:t2")]]);
    try reflexivity.
  repeat constructor; discriminate.
Defined.


Lemma album_get_tracks_witness :
  ∃ album items tracks,
    fst (fst (exec 2000 (answering sample_album)
                (memo_await (sample_key [JStr "album"; JStr "a1"])
                   (call_on (Some 1%nat) (albums_get (JStr "a1"))))
                sample_world)) = Ok album ∧
    (tracks ← get_prop album "tracks"; get_prop tracks "items")
    = Ok (JArr items) ∧
    fst (fst (exec 2000 (answering sample_album)
                (album_get sample_key (Some 1%nat) (JStr "a1")) sample_world))
    = Ok (JObj [("tracks", JArr tracks)]) ∧
    List.length tracks = List.length items ∧
    Forall (λ track, get_prop album "name"
                     = Ok (obj_get (spread track) "album")) tracks.
Proof.
  destruct (exec 2000 (answering sample_album)
              (album_get sample_key (Some 1%nat) (JStr "a1")) sample_world)
    as [[r w1] t] eqn:He.
  destruct r as [view|e]; [|vm_compute in He; discriminate He].
  destruct (album_get_tracks 2000 sample_key (answering sample_album)
              (Some 1%nat) (JStr "a1") sample_world view w1 t He)
    as (album & items & tracks & Ha & Hi & Hv & Hl & Hn).
  exists album, items, tracks. rewrite Hv. repeat split; assumption.
Defined.

Lemma search_reads_address_witness :
  search_handler sample_key SpotifyRegExp ∅
    (sample_query "GET" ["api"; "search"] [("q", JStr sample_address)])
  = album_get sample_key None (JStr sample_id).
Proof.
  apply (search_reads_address sample_key ∅
           (sample_query "GET" ["api"; "search"] [("q", JStr sample_address)])
           "https" "open." "album" sample_id "?si=1");
    [simpl; auto | simpl; auto | simpl; auto | reflexivity | left; reflexivity].
Defined.
